(** * goque: the priority queue of [pqueue.go]

    A shallow embedding of [PriorityQueue] (256 FIFO levels over an ordered
    key-value store) and the proofs of its ordering, recovery, error and
    frame properties.

    Conventions.
    - [uint64] and [uint8] values are integers of [Z]; every arithmetic
      operation of the source that can wrap is written with [add64]/[sub64].
    - Byte slices (keys and values) are lists of integers in [0, 256).
    - The LevelDB handle is a finite map from keys to values.  A storage call
      can fail: each operation receives a [faults] record saying which of the
      calls it makes fail, and with which error.  A failed [Put] or [Delete]
      leaves the stored data as it was.
    - Go's [(item, err)] results are pairs of options, so that a non-nil item
      returned together with an error is representable. *)

From Stdlib Require Import ZArith Lia.
From stdpp Require Import base option list sorting gmap.

Local Open Scope Z_scope.

(** ** Machine integers *)

Definition wrap64 (x : Z) : Z := x mod 2 ^ 64.
Definition add64 (x y : Z) : Z := wrap64 (x + y).
Definition sub64 (x y : Z) : Z := wrap64 (x - y).

(** The conversion [uint8(i)] of an [int]. *)
Definition uint8 (i : Z) : Z := i mod 256.

(** ** Errors *)

Inductive error : Type :=
| ErrEmpty            (* goque.ErrEmpty *)
| ErrOutOfBounds      (* goque.ErrOutOfBounds *)
| ErrNotFound         (* leveldb.ErrNotFound *)
| ErrStorage.         (* any other failure reported by the store *)

#[global] Instance error_eq_dec : EqDecision error.
Proof. solve_decision. Defined.

(** ** The storage collaborator *)

(** Which storage calls of one queue operation fail. *)
Record faults : Type := mkFaults {
  put_err : option error;
  get_err : option error;
  del_err : option error
}.

Definition no_fault : faults := mkFaults None None None.

Definition db_Put (f : faults) (k v : list Z) (d : gmap (list Z) (list Z))
  : gmap (list Z) (list Z) * option error :=
  match put_err f with
  | Some e => (d, Some e)
  | None => (<[k := v]> d, None)
  end.

Definition db_Get (f : faults) (k : list Z) (d : gmap (list Z) (list Z))
  : list Z * option error :=
  match get_err f with
  | Some e => ([], Some e)
  | None =>
      match d !! k with
      | Some v => (v, None)
      | None => ([], Some ErrNotFound)
      end
  end.

Definition db_Delete (f : faults) (k : list Z) (d : gmap (list Z) (list Z))
  : gmap (list Z) (list Z) * option error :=
  match del_err f with
  | Some e => (d, Some e)
  | None => (delete k d, None)
  end.

(** [bytes.Compare a b <= 0]: the byte-lexicographic order of the store. *)
Fixpoint bytes_leb (a b : list Z) : bool :=
  match a, b with
  | [], _ => true
  | _ :: _, [] => false
  | x :: a', y :: b' => (x <? y) || ((x =? y) && bytes_leb a' b')
  end.

Definition bytes_le (a b : list Z) : Prop := bytes_leb a b = true.

#[global] Instance bytes_le_dec : RelDecision bytes_le.
Proof. intros a b. unfold bytes_le. apply _. Defined.

Fixpoint has_prefix (p k : list Z) : bool :=
  match p, k with
  | [], _ => true
  | _ :: _, [] => false
  | x :: p', y :: k' => (x =? y) && has_prefix p' k'
  end.

(** [db.NewIterator(util.BytesPrefix(prefix), nil)]: the keys that start with
    [prefix], in the store's order.  [iter.First()] is the head of this list
    and [iter.Last()] its last element. *)
Definition iter_keys (d : gmap (list Z) (list Z)) (prefix : list Z) : list (list Z) :=
  merge_sort bytes_le (filter (λ k, has_prefix prefix k = true) (map fst (map_to_list d))).

(** ** Key codec *)

(** [prefixSep]. *)
Definition prefixSep : list Z := [58].

(** Big-endian digits of [x] on [n] bytes. *)
Fixpoint be_bytes (n : nat) (x : Z) : list Z :=
  match n with
  | O => []
  | S n' => be_bytes n' (x / 256) ++ [x mod 256]
  end.

Definition be_value (bs : list Z) : Z := foldl (λ acc b, acc * 256 + b) 0 bs.

(** Modelled from the spec: [idToKey] is declared in another file of the
    package; the spec gives the id as an 8-byte big-endian integer. *)
Definition idToKey (id : Z) : list Z := be_bytes 8 id.

(** Modelled from the spec: [keyToID] is declared in another file of the
    package; it reads the 8-byte big-endian integer back. *)
Definition keyToID (k : list Z) : Z := be_value (take 8 k).

Definition generatePrefix (level : Z) : list Z :=
  level :: take 1 prefixSep.

Definition generateKey (priority id : Z) : list Z :=
  generatePrefix priority ++ idToKey id.

(** ** Data model *)

Inductive order : Type := ASC | DESC.

#[global] Instance order_eq_dec : EqDecision order.
Proof. solve_decision. Defined.

Record priorityLevel : Type := mkLevel { head : Z; tail : Z }.

#[global] Instance priorityLevel_inhabited : Inhabited priorityLevel :=
  populate (mkLevel 0 0).

#[global] Instance priorityLevel_eq_dec : EqDecision priorityLevel.
Proof. solve_decision. Defined.

(** [priorityLevel.length]. *)
Definition pl_length (pl : priorityLevel) : Z := sub64 (tail pl) (head pl).

Record PriorityItem : Type := mkItem {
  ID : Z;
  Priority : Z;
  Key : list Z;
  Value : list Z
}.

#[global] Instance PriorityItem_eq_dec : EqDecision PriorityItem.
Proof. solve_decision. Defined.

Record PriorityQueue : Type := mkPQ {
  db : gmap (list Z) (list Z);
  ord : order;
  levels : list priorityLevel;
  curLevel : Z
}.

Definition set_db (d : gmap (list Z) (list Z)) (pq : PriorityQueue) : PriorityQueue :=
  mkPQ d (ord pq) (levels pq) (curLevel pq).
Definition set_levels (ls : list priorityLevel) (pq : PriorityQueue) : PriorityQueue :=
  mkPQ (db pq) (ord pq) ls (curLevel pq).
Definition set_curLevel (c : Z) (pq : PriorityQueue) : PriorityQueue :=
  mkPQ (db pq) (ord pq) (levels pq) c.

(** [pq.levels[p]] for a [uint8] index [p]. *)
Definition level_at (pq : PriorityQueue) (p : Z) : priorityLevel :=
  levels pq !!! Z.to_nat p.

(** [pq.levels[p].head++] and [pq.levels[p].tail++]. *)
Definition incr_head (p : Z) (pq : PriorityQueue) : PriorityQueue :=
  set_levels (<[Z.to_nat p := mkLevel (add64 (head (level_at pq p)) 1) (tail (level_at pq p))]> (levels pq)) pq.
Definition incr_tail (p : Z) (pq : PriorityQueue) : PriorityQueue :=
  set_levels (<[Z.to_nat p := mkLevel (head (level_at pq p)) (add64 (tail (level_at pq p)) 1)]> (levels pq)) pq.

(** ** Ordering policy *)

Definition cmpAsc (pq : PriorityQueue) (priority : Z) : bool :=
  bool_decide (ord pq = ASC) && (priority <? curLevel pq).

Definition cmpDesc (pq : PriorityQueue) (priority : Z) : bool :=
  bool_decide (ord pq = DESC) && (curLevel pq <? priority).

Definition resetCurrentLevel (pq : PriorityQueue) : PriorityQueue :=
  match ord pq with
  | ASC => set_curLevel 255 pq
  | DESC => set_curLevel 0 pq
  end.

(** ** Queue engine *)

Definition getItemByPriorityID (f : faults) (pq : PriorityQueue) (priority id : Z)
  : option PriorityItem * option error :=
  if pl_length (level_at pq priority) =? 0 then (None, Some ErrEmpty)
  else if (id <=? head (level_at pq priority)) || (tail (level_at pq priority) <? id)
  then (None, Some ErrOutOfBounds)
  else
    let key := generateKey priority id in
    let '(v, err) := db_Get f key (db pq) in
    (Some (mkItem id priority key v), err).

(** One iteration of the scan of [getNextItem]. *)
Definition scan_step (pq : PriorityQueue) (i : Z) : PriorityQueue :=
  if (cmpAsc pq (uint8 i) || cmpDesc pq (uint8 i)) && (0 <? pl_length (level_at pq (uint8 i)))
  then set_curLevel (uint8 i) pq
  else pq.

Definition getNextItem (f : faults) (pq : PriorityQueue)
  : (option PriorityItem * option error) * PriorityQueue :=
  if pl_length (level_at pq (curLevel pq)) =? 0 then
    let pq1 := resetCurrentLevel pq in
    let pq2 := foldl scan_step pq1 (seqZ 0 256) in
    if pl_length (level_at pq2 (curLevel pq2)) =? 0 then ((None, Some ErrEmpty), pq2)
    else (getItemByPriorityID f pq2 (curLevel pq2) (add64 (head (level_at pq2 (curLevel pq2))) 1), pq2)
  else
    (getItemByPriorityID f pq (curLevel pq) (add64 (head (level_at pq (curLevel pq))) 1), pq).

(** [Enqueue] writes the id and the key into the caller's item; the updated
    item is returned with the error. *)
Definition Enqueue (f : faults) (item : PriorityItem) (pq : PriorityQueue)
  : (PriorityItem * option error) * PriorityQueue :=
  let level := level_at pq (Priority item) in
  let id := add64 (tail level) 1 in
  let item' := mkItem id (Priority item) (generateKey (Priority item) id) (Value item) in
  match db_Put f (Key item') (Value item') (db pq) with
  | (d, None) =>
      let pq1 := incr_tail (Priority item) (set_db d pq) in
      let pq2 := if cmpAsc pq1 (Priority item) || cmpDesc pq1 (Priority item)
                 then set_curLevel (Priority item) pq1 else pq1 in
      ((item', None), pq2)
  | (_, Some e) => ((item', Some e), pq)
  end.

Definition Dequeue (f : faults) (pq : PriorityQueue)
  : (option PriorityItem * option error) * PriorityQueue :=
  match getNextItem f pq with
  | ((item, Some e), pq1) => ((item, Some e), pq1)
  | ((None, None), pq1) => ((None, None), pq1)
  | ((Some item, None), pq1) =>
      match db_Delete f (Key item) (db pq1) with
      | (_, Some e) => ((Some item, Some e), pq1)
      | (d, None) => ((Some item, None), incr_head (curLevel pq1) (set_db d pq1))
      end
  end.

Definition DequeueByPriority (f : faults) (priority : Z) (pq : PriorityQueue)
  : (option PriorityItem * option error) * PriorityQueue :=
  match getItemByPriorityID f pq priority (add64 (head (level_at pq priority)) 1) with
  | (item, Some e) => ((item, Some e), pq)
  | (None, None) => ((None, None), pq)
  | (Some item, None) =>
      match db_Delete f (Key item) (db pq) with
      | (_, Some e) => ((Some item, Some e), pq)
      | (d, None) => ((Some item, None), incr_head priority (set_db d pq))
      end
  end.

Definition Peek (f : faults) (pq : PriorityQueue)
  : (option PriorityItem * option error) * PriorityQueue :=
  getNextItem f pq.

(** The loop of [findOffsetAsc]/[findOffsetDesc] over the remaining indices
    [idxs], with the locals [length] and [priority]; [ge] is the comparison of
    the loop's guard ([iu8 >= priority] or [iu8 <= priority]). *)
Fixpoint findOffset_loop (ge : Z → Z → bool) (f : faults) (pq : PriorityQueue)
    (offset : Z) (idxs : list Z) (length priority : Z)
  : option PriorityItem * option error :=
  match idxs with
  | [] => (None, Some ErrOutOfBounds)
  | i :: rest =>
      let iu8 := uint8 i in
      if ge iu8 priority && (0 <? pl_length (level_at pq iu8)) then
        let newLength := sub64 (pl_length (level_at pq iu8)) 1 in
        if offset <=? add64 length newLength
        then getItemByPriorityID f pq iu8 (add64 (sub64 offset length) 1)
        else findOffset_loop ge f pq offset rest (add64 length (add64 newLength 1)) iu8
      else findOffset_loop ge f pq offset rest length priority
  end.

Definition findOffsetAsc (f : faults) (pq : PriorityQueue) (offset : Z)
  : option PriorityItem * option error :=
  findOffset_loop Z.geb f pq offset (seqZ 0 256) 0 (curLevel pq).

Definition findOffsetDesc (f : faults) (pq : PriorityQueue) (offset : Z)
  : option PriorityItem * option error :=
  findOffset_loop Z.leb f pq offset (reverse (seqZ 0 256)) 0 (curLevel pq).

Definition PeekByOffset (f : faults) (pq : PriorityQueue) (offset : Z)
  : (option PriorityItem * option error) * PriorityQueue :=
  if offset <=? sub64 (pl_length (level_at pq (curLevel pq))) 1 then
    (getItemByPriorityID f pq (curLevel pq)
       (add64 (add64 (head (level_at pq (curLevel pq))) offset) 1), pq)
  else
    match ord pq with
    | ASC => (findOffsetAsc f pq offset, pq)
    | DESC => (findOffsetDesc f pq offset, pq)
    end.

Definition PeekByPriorityID (f : faults) (priority id : Z) (pq : PriorityQueue)
  : (option PriorityItem * option error) * PriorityQueue :=
  (getItemByPriorityID f pq priority id, pq).

Definition Update (f : faults) (item : PriorityItem) (newValue : list Z) (pq : PriorityQueue)
  : (PriorityItem * option error) * PriorityQueue :=
  let item' := mkItem (ID item) (Priority item) (Key item) newValue in
  match db_Put f (Key item') (Value item') (db pq) with
  | (d, err) => ((item', err), set_db d pq)
  end.

Definition Length (pq : PriorityQueue) : Z :=
  foldl (λ length v, add64 length (pl_length v)) 0 (levels pq).

(** ** Recovery *)

(** One iteration of the loop of [init]; [iter_err i] is [iter.Error()] for
    the iterator of level [i]. *)
Definition init_step (iter_err : Z → option error) (pq : PriorityQueue) (i : Z)
  : option error * PriorityQueue :=
  let ks := iter_keys (db pq) (generatePrefix (uint8 i)) in
  let pl := mkLevel 0 0 in
  let '(pl1, pq1) :=
    match ks with
    | k :: _ =>
        (mkLevel (sub64 (keyToID (drop 2 k)) 1) (tail pl),
         if cmpAsc pq (uint8 i) || cmpDesc pq (uint8 i)
         then set_curLevel (uint8 i) pq else pq)
    | [] => (pl, pq)
    end in
  let pl2 :=
    match last ks with
    | Some k => mkLevel (head pl1) (keyToID (drop 2 k))
    | None => pl1
    end in
  match iter_err i with
  | Some e => (Some e, pq1)
  | None => (None, set_levels (<[Z.to_nat i := pl2]> (levels pq1)) pq1)
  end.

Fixpoint init_loop (iter_err : Z → option error) (idxs : list Z) (pq : PriorityQueue)
  : option error * PriorityQueue :=
  match idxs with
  | [] => (None, pq)
  | i :: rest =>
      match init_step iter_err pq i with
      | (Some e, pq1) => (Some e, pq1)
      | (None, pq1) => init_loop iter_err rest pq1
      end
  end.

Definition init (iter_err : Z → option error) (pq : PriorityQueue)
  : option error * PriorityQueue :=
  init_loop iter_err (seqZ 0 256) (resetCurrentLevel pq).

(** [OpenPriorityQueue] once the store is open and the type marker checked.
    The 256 level pointers are nil until [init] assigns them; the placeholder
    entries stand for them and are all overwritten by a successful [init]. *)
Definition OpenPriorityQueue (d : gmap (list Z) (list Z)) (o : order)
    (iter_err : Z → option error) : option error * PriorityQueue :=
  init iter_err (mkPQ d o (replicate 256 (mkLevel 0 0)) 0).

(** A queue freshly created on an empty store. *)
Definition fresh (o : order) : PriorityQueue :=
  (OpenPriorityQueue ∅ o (λ _, None)).2.

(** ** Specification vocabulary *)

(** [p] is strictly more important than [c] under the ordering [o]. *)
Definition more_important (o : order) (p c : Z) : bool :=
  match o with
  | ASC => p <? c
  | DESC => c <? p
  end.

(** The value [resetCurrentLevel] gives the cursor: the least important level. *)
Definition reset_extreme (o : order) : Z :=
  match o with
  | ASC => 255
  | DESC => 0
  end.

Definition is_priority (p : Z) : Prop := 0 ≤ p < 256.

Definition level_empty (pq : PriorityQueue) (p : Z) : Prop :=
  head (level_at pq p) = tail (level_at pq p).

(** * Basic facts *)

Section Arithmetic.

Lemma wrap64_range x : 0 ≤ wrap64 x < 2 ^ 64.
Proof. unfold wrap64. apply Z.mod_pos_bound. lia. Qed.

Lemma wrap64_small x : 0 ≤ x < 2 ^ 64 → wrap64 x = x.
Proof. intros. unfold wrap64. by apply Z.mod_small. Qed.

Lemma uint8_small i : 0 ≤ i < 256 → uint8 i = i.
Proof. intros. unfold uint8. by apply Z.mod_small. Qed.

Lemma sub64_eq_0 x y :
  0 ≤ x < 2 ^ 64 → 0 ≤ y < 2 ^ 64 → sub64 x y = 0 ↔ x = y.
Proof.
  intros Hx Hy. unfold sub64, wrap64. split.
  - intros H. apply Z.mod_divide in H; [|lia].
    destruct H as [k Hk]. nia.
  - intros ->. by rewrite Z.sub_diag.
Qed.

End Arithmetic.

Section Cursor.

Lemma cmp_more_important pq p :
  cmpAsc pq p || cmpDesc pq p = more_important (ord pq) p (curLevel pq).
Proof.
  unfold cmpAsc, cmpDesc, more_important.
  destruct (ord pq); simpl; [by rewrite orb_false_r | done].
Qed.

End Cursor.

(** * Enqueue *)

Section EnqueueFacts.

Variables (f : faults) (item : PriorityItem) (pq : PriorityQueue).

Lemma Enqueue_item :
  (Enqueue f item pq).1.1 =
  mkItem (add64 (tail (level_at pq (Priority item))) 1) (Priority item)
    (generateKey (Priority item) (add64 (tail (level_at pq (Priority item))) 1))
    (Value item).
Proof. unfold Enqueue, db_Put. simpl. by destruct (put_err f). Qed.

Lemma Enqueue_failed e :
  put_err f = Some e → Enqueue f item pq = ((Enqueue f item pq).1.1, Some e, pq).
Proof. intros H. unfold Enqueue, db_Put. simpl. by rewrite H. Qed.

Lemma Enqueue_ok_err : put_err f = None → (Enqueue f item pq).1.2 = None.
Proof. intros H. unfold Enqueue, db_Put. simpl. by rewrite H. Qed.

Lemma Enqueue_ok_curLevel :
  put_err f = None →
  curLevel (Enqueue f item pq).2 =
  if more_important (ord pq) (Priority item) (curLevel pq)
  then Priority item else curLevel pq.
Proof.
  intros H. unfold Enqueue, db_Put. simpl. rewrite H. simpl.
  rewrite cmp_more_important. simpl.
  by destruct (more_important _ _ _).
Qed.

Lemma Enqueue_ok_levels :
  put_err f = None →
  levels (Enqueue f item pq).2 =
  <[Z.to_nat (Priority item) :=
      mkLevel (head (level_at pq (Priority item)))
              (add64 (tail (level_at pq (Priority item))) 1)]> (levels pq).
Proof.
  intros H. unfold Enqueue, db_Put. simpl. rewrite H. simpl.
  by destruct (_ || _).
Qed.

Lemma Enqueue_ok_db :
  put_err f = None →
  db (Enqueue f item pq).2 =
  <[generateKey (Priority item) (add64 (tail (level_at pq (Priority item))) 1) := Value item]> (db pq).
Proof.
  intros H. unfold Enqueue, db_Put. simpl. rewrite H. simpl.
  by destruct (_ || _).
Qed.

Lemma Enqueue_ord : ord (Enqueue f item pq).2 = ord pq.
Proof.
  unfold Enqueue, db_Put. simpl. destruct (put_err f); simpl; [done|].
  by destruct (_ || _).
Qed.

End EnqueueFacts.

(** C6. When the storage write of [Enqueue] fails, the queue is left exactly as
    it was (every counter, the cursor and the stored data), the error is
    returned, the failed item was given the id [tail + 1], and the next
    [Enqueue] on that level is given the same id. *)
Theorem Enqueue_put_failure_keeps_state
    (f : faults) (item : PriorityItem) (pq : PriorityQueue) (e : error) :
  put_err f = Some e →
  (Enqueue f item pq).1.2 = Some e ∧
  (Enqueue f item pq).2 = pq ∧
  tail (level_at (Enqueue f item pq).2 (Priority item)) = tail (level_at pq (Priority item)) ∧
  ID (Enqueue f item pq).1.1 = add64 (tail (level_at pq (Priority item))) 1 ∧
  ∀ (f' : faults) (item' : PriorityItem),
    Priority item' = Priority item →
    ID (Enqueue f' item' (Enqueue f item pq).2).1.1 = ID (Enqueue f item pq).1.1.
Proof.
  intros Hf. rewrite (Enqueue_failed f item pq e Hf). simpl.
  repeat split; try done.
  - by rewrite Enqueue_item.
  - intros f' item' Hp. rewrite !Enqueue_item. simpl. by rewrite Hp.
Qed.

Lemma Enqueue_put_failure_keeps_state_witness :
  put_err (mkFaults (Some ErrStorage) None None) = Some ErrStorage ∧
  (Enqueue (mkFaults (Some ErrStorage) None None) (mkItem 0 5 [] [97]) (fresh ASC)).2 = fresh ASC.
Proof.
  split; [reflexivity|].
  apply (Enqueue_put_failure_keeps_state
           (mkFaults (Some ErrStorage) None None) (mkItem 0 5 [] [97]) (fresh ASC) ErrStorage).
  reflexivity.
Defined.

(** C8. A successful [Enqueue] moves the cursor to the item's priority exactly
    when that priority is strictly more important than the cursor (strictly
    lower in ascending mode, strictly higher in descending mode), whatever the
    current level still holds; otherwise the cursor stays. *)
Theorem Enqueue_success_cursor
    (f : faults) (item : PriorityItem) (pq : PriorityQueue) :
  put_err f = None →
  (Enqueue f item pq).1.2 = None ∧
  (more_important (ord pq) (Priority item) (curLevel pq) = true →
     curLevel (Enqueue f item pq).2 = Priority item) ∧
  (more_important (ord pq) (Priority item) (curLevel pq) = false →
     curLevel (Enqueue f item pq).2 = curLevel pq).
Proof.
  intros Hf. split; [by apply Enqueue_ok_err|].
  rewrite Enqueue_ok_curLevel by done.
  split; intros ->; done.
Qed.

(** * The level scan *)

(** The cursor computed by a scan over the indices [l], from the cursor [c],
    when [ne i] tells whether level [i] holds items. *)
Definition cursor_fold (o : order) (ne : Z → bool) (c : Z) (l : list Z) : Z :=
  foldl (λ c i, if more_important o (uint8 i) c && ne (uint8 i) then uint8 i else c) c l.

Definition nonempty_at (ls : list priorityLevel) (i : Z) : bool :=
  0 <? pl_length (ls !!! Z.to_nat i).

Section Scan.

Lemma more_important_irrefl o c : more_important o c c = false.
Proof. destruct o; simpl; lia. Qed.

Lemma more_important_trans o a b c :
  more_important o a b = false → more_important o b c = false →
  more_important o a c = false.
Proof. destruct o; simpl; lia. Qed.

Lemma more_important_total o a b :
  more_important o a b = false → more_important o b a = false → a = b.
Proof. destruct o; simpl; lia. Qed.

Lemma cursor_fold_spec o ne l : ∀ c0,
  Forall is_priority l →
  (cursor_fold o ne c0 l = c0 ∨
   (cursor_fold o ne c0 l ∈ l ∧ ne (cursor_fold o ne c0 l) = true ∧
    more_important o (cursor_fold o ne c0 l) c0 = true)) ∧
  (∀ i, i ∈ l → ne i = true → more_important o i (cursor_fold o ne c0 l) = false) ∧
  more_important o c0 (cursor_fold o ne c0 l) = false.
Proof.
  induction l as [|i l IH]; intros c0 Hl.
  - simpl. split; [by left|]. split; [by intros i Hi; inversion Hi|].
    apply more_important_irrefl.
  - apply Forall_cons in Hl as [Hi Hl]. unfold is_priority in Hi.
    unfold cursor_fold. simpl. rewrite (uint8_small i) by done.
    set (c1 := if more_important o i c0 && ne i then i else c0).
    destruct (IH c1 Hl) as (Hc & Hmin & Hle). fold (cursor_fold o ne c1 l) in *.
    assert (Hc1 : (c1 = c0 ∧ (ne i = true → more_important o i c0 = false)) ∨
                  (c1 = i ∧ ne i = true ∧ more_important o i c0 = true)).
    { unfold c1. destruct (more_important o i c0) eqn:E1, (ne i) eqn:E2; simpl; auto. }
    clearbody c1.
    assert (Hc10 : more_important o c0 c1 = false).
    { destruct Hc1 as [[-> _]|(-> & _ & H)]; [apply more_important_irrefl|].
      destruct o; simpl in *; lia. }
    split; [|split].
    + destruct Hc as [Hc|(Hin & Hne & Hmi)].
      * rewrite Hc. destruct Hc1 as [[-> _]|(-> & ? & ?)]; [by left|right].
        split; [by left|done].
      * right. split; [by right|]. split; [done|].
        destruct Hc1 as [[-> _]|(-> & _ & H)]; [done|].
        destruct o; simpl in *; lia.
    + intros j Hj Hnej. apply elem_of_cons in Hj as [->|Hj]; [|by apply Hmin].
      apply more_important_trans with c1; [|done].
      destruct Hc1 as [[-> H]|(-> & _)]; [by apply H|apply more_important_irrefl].
    + by apply more_important_trans with c1.
Qed.

Lemma scan_step_frame pq i :
  db (scan_step pq i) = db pq ∧ ord (scan_step pq i) = ord pq ∧
  levels (scan_step pq i) = levels pq ∧
  curLevel (scan_step pq i) =
  if more_important (ord pq) (uint8 i) (curLevel pq) && nonempty_at (levels pq) (uint8 i)
  then uint8 i else curLevel pq.
Proof.
  unfold scan_step. rewrite cmp_more_important.
  unfold level_at, nonempty_at. by destruct (_ && _).
Qed.

Lemma scan_frame l : ∀ pq,
  db (foldl scan_step pq l) = db pq ∧ ord (foldl scan_step pq l) = ord pq ∧
  levels (foldl scan_step pq l) = levels pq ∧
  curLevel (foldl scan_step pq l) =
  cursor_fold (ord pq) (nonempty_at (levels pq)) (curLevel pq) l.
Proof.
  induction l as [|i l IH]; intros pq; [done|].
  simpl. destruct (IH (scan_step pq i)) as (-> & -> & -> & ->).
  destruct (scan_step_frame pq i) as (-> & -> & -> & ->). done.
Qed.

Lemma resetCurrentLevel_frame pq :
  db (resetCurrentLevel pq) = db pq ∧ ord (resetCurrentLevel pq) = ord pq ∧
  levels (resetCurrentLevel pq) = levels pq ∧
  curLevel (resetCurrentLevel pq) = reset_extreme (ord pq).
Proof. unfold resetCurrentLevel, reset_extreme. by destruct (ord pq) eqn:E. Qed.

End Scan.

(** The state [getNextItem] leaves behind: the queue itself when the current
    level holds items, the queue with a rescanned cursor otherwise. *)
Definition rescan (pq : PriorityQueue) : PriorityQueue :=
  if pl_length (level_at pq (curLevel pq)) =? 0
  then foldl scan_step (resetCurrentLevel pq) (seqZ 0 256)
  else pq.

Section GetNextItem.

Lemma getNextItem_state f pq : (getNextItem f pq).2 = rescan pq.
Proof.
  unfold getNextItem, rescan.
  destruct (pl_length (level_at pq (curLevel pq)) =? 0); [|done].
  by destruct (pl_length (level_at (foldl _ _ _) _) =? 0).
Qed.

Lemma rescan_frame pq :
  db (rescan pq) = db pq ∧ ord (rescan pq) = ord pq ∧ levels (rescan pq) = levels pq.
Proof.
  unfold rescan. destruct (pl_length _ =? 0); [|done].
  destruct (scan_frame (seqZ 0 256) (resetCurrentLevel pq)) as (-> & -> & -> & _).
  by destruct (resetCurrentLevel_frame pq) as (-> & -> & -> & _).
Qed.

Lemma level_at_rescan pq p : level_at (rescan pq) p = level_at pq p.
Proof. unfold level_at. by destruct (rescan_frame pq) as (_ & _ & ->). Qed.

Lemma rescan_nonempty pq :
  pl_length (level_at pq (curLevel pq)) ≠ 0 → rescan pq = pq.
Proof. intros H. unfold rescan. by apply Z.eqb_neq in H as ->. Qed.

Lemma getNextItem_result f pq :
  (getNextItem f pq).1 =
  if pl_length (level_at (rescan pq) (curLevel (rescan pq))) =? 0
  then (None, Some ErrEmpty)
  else getItemByPriorityID f (rescan pq) (curLevel (rescan pq))
         (add64 (head (level_at (rescan pq) (curLevel (rescan pq)))) 1).
Proof.
  unfold getNextItem, rescan.
  destruct (pl_length (level_at pq (curLevel pq)) =? 0) eqn:E.
  - by destruct (pl_length (level_at (foldl _ _ _) _) =? 0).
  - by rewrite E.
Qed.

Lemma rescan_idem pq : rescan (rescan pq) = rescan pq.
Proof.
  destruct (decide (pl_length (level_at (rescan pq) (curLevel (rescan pq))) = 0)) as [E|E];
    [|by apply rescan_nonempty].
  unfold rescan at 1. rewrite (proj2 (Z.eqb_eq _ _) E).
  unfold rescan in *.
  destruct (pl_length (level_at pq (curLevel pq)) =? 0) eqn:E0; [|lia].
  set (pq2 := foldl scan_step (resetCurrentLevel pq) (seqZ 0 256)).
    destruct (scan_frame (seqZ 0 256) (resetCurrentLevel pq)) as (Hd & Ho & Hl & _).
    destruct (resetCurrentLevel_frame pq) as (Hd' & Ho' & Hl' & _).
    fold pq2 in Hd, Ho, Hl.
    assert (resetCurrentLevel pq2 = resetCurrentLevel pq) as ->; [|done].
    unfold resetCurrentLevel. rewrite Ho, Ho'.
    unfold set_curLevel. rewrite Hd, Ho, Hl, Hd', Ho', Hl'. done.
Qed.

End GetNextItem.

(** * Reading an item *)

Section GetItem.

Lemma pl_length_range pl : 0 ≤ pl_length pl < 2 ^ 64.
Proof. apply wrap64_range. Qed.

Lemma nonempty_at_true ls i : nonempty_at ls i = true ↔ pl_length (ls !!! Z.to_nat i) ≠ 0.
Proof. unfold nonempty_at. pose proof (pl_length_range (ls !!! Z.to_nat i)). lia. Qed.

Lemma getItem_congr f pq1 pq2 p id :
  levels pq1 = levels pq2 → db pq1 = db pq2 →
  getItemByPriorityID f pq1 p id = getItemByPriorityID f pq2 p id.
Proof. intros Hl Hd. unfold getItemByPriorityID, level_at. by rewrite Hl, Hd. Qed.

Lemma getItem_ok_inv f pq p id item :
  getItemByPriorityID f pq p id = (Some item, None) →
  get_err f = None ∧ pl_length (level_at pq p) ≠ 0 ∧
  head (level_at pq p) < id ≤ tail (level_at pq p) ∧
  ∃ v, db pq !! generateKey p id = Some v ∧ item = mkItem id p (generateKey p id) v.
Proof.
  unfold getItemByPriorityID, db_Get.
  destruct (pl_length (level_at pq p) =? 0) eqn:E1; [done|].
  destruct (_ || _) eqn:E2; [done|].
  destruct (get_err f); [done|].
  destruct (db pq !! generateKey p id) as [v|] eqn:E3; [|done].
  intros [= <-]. repeat split; try lia. by exists v.
Qed.

Lemma getItem_ok f pq p id v :
  get_err f = None → pl_length (level_at pq p) ≠ 0 →
  head (level_at pq p) < id ≤ tail (level_at pq p) →
  db pq !! generateKey p id = Some v →
  getItemByPriorityID f pq p id = (Some (mkItem id p (generateKey p id) v), None).
Proof.
  intros Hf Hne Hid Hv. unfold getItemByPriorityID, db_Get.
  apply Z.eqb_neq in Hne as ->.
  replace (_ || _) with false by lia.
  by rewrite Hf, Hv.
Qed.

Lemma getItem_ok_faults f f' pq p id item :
  getItemByPriorityID f pq p id = (Some item, None) → get_err f' = None →
  getItemByPriorityID f' pq p id = (Some item, None).
Proof.
  intros H Hf'. apply getItem_ok_inv in H as (_ & Hne & Hid & v & Hv & ->).
  by apply getItem_ok.
Qed.

Lemma getItem_empty f pq p id :
  pl_length (level_at pq p) = 0 → getItemByPriorityID f pq p id = (None, Some ErrEmpty).
Proof. intros H. unfold getItemByPriorityID. by rewrite H. Qed.

End GetItem.

(** * Dequeue under a failing delete *)

Section DequeueFailure.

Lemma getNextItem_ok_inv f pq item pq1 :
  getNextItem f pq = ((Some item, None), pq1) →
  pq1 = rescan pq ∧
  pl_length (level_at pq1 (curLevel pq1)) ≠ 0 ∧
  getItemByPriorityID f pq1 (curLevel pq1) (add64 (head (level_at pq1 (curLevel pq1))) 1)
  = (Some item, None).
Proof.
  intros H.
  assert (H2 : (getNextItem f pq).2 = pq1) by by rewrite H.
  assert (H1 : (getNextItem f pq).1 = (Some item, None)) by by rewrite H.
  rewrite getNextItem_state in H2. subst pq1.
  rewrite getNextItem_result in H1. split; [done|].
  destruct (pl_length _ =? 0) eqn:E; [done|]. split; [lia | done].
Qed.

Lemma getNextItem_again f f' pq item pq1 :
  getNextItem f pq = ((Some item, None), pq1) → get_err f' = None →
  getNextItem f' pq1 = ((Some item, None), pq1).
Proof.
  intros H Hf'. apply getNextItem_ok_inv in H as (-> & Hne & Hget).
  rewrite (surjective_pairing (getNextItem f' (rescan pq))).
  rewrite getNextItem_state, getNextItem_result, rescan_idem.
  apply Z.eqb_neq in Hne as ->.
  by rewrite (getItem_ok_faults _ _ _ _ _ _ Hget Hf').
Qed.

End DequeueFailure.

(** C5. When [Dequeue] has located the next item and the storage delete then
    fails, the item is returned together with the error, no level counter
    moves (in particular the head of the served level), the stored data are
    as before, and the next [Dequeue] returns the identical item. *)
Theorem Dequeue_delete_failure_redelivers
    (f f' : faults) (pq pq1 : PriorityQueue) (item : PriorityItem) (e : error) :
  getNextItem f pq = ((Some item, None), pq1) →
  del_err f = Some e →
  get_err f' = None →
  Dequeue f pq = ((Some item, Some e), pq1) ∧
  levels pq1 = levels pq ∧
  head (level_at pq1 (curLevel pq1)) = head (level_at pq (curLevel pq1)) ∧
  db pq1 = db pq ∧
  (Dequeue f' pq1).1.1 = Some item ∧
  (del_err f' = None → (Dequeue f' pq1).1 = (Some item, None)).
Proof.
  intros Hnext Hdel Hget.
  pose proof (getNextItem_again _ _ _ _ _ Hnext Hget) as Hagain.
  pose proof (getNextItem_ok_inv _ _ _ _ Hnext) as (Hpq1 & _ & _).
  destruct (rescan_frame pq) as (Hd & _ & Hl). rewrite <- Hpq1 in Hd, Hl.
  split; [|split; [done|split; [|split; [done|]]]].
  - unfold Dequeue. rewrite Hnext. unfold db_Delete. by rewrite Hdel.
  - unfold level_at. by rewrite Hl.
  - unfold Dequeue. rewrite Hagain. unfold db_Delete.
    destruct (del_err f'); simpl; [done|]. split; [done|]. done.
Qed.

Lemma Dequeue_delete_failure_redelivers_witness :
  let pq := (Enqueue no_fault (mkItem 0 5 [] [97]) (fresh ASC)).2 in
  let item := mkItem 1 5 [5; 58; 0; 0; 0; 0; 0; 0; 0; 1] [97] in
  Dequeue (mkFaults None None (Some ErrStorage)) pq = ((Some item, Some ErrStorage), pq) ∧
  (Dequeue no_fault pq).1 = (Some item, None).
Proof.
  intros pq item.
  destruct (Dequeue_delete_failure_redelivers
              (mkFaults None None (Some ErrStorage)) no_fault pq pq item ErrStorage)
    as (H1 & _ & _ & _ & _ & H2); [vm_compute; reflexivity | reflexivity | reflexivity |].
  split; [exact H1 | apply H2; reflexivity].
Defined.

(** * Peek *)

Section RescanCursor.

Lemma Forall_priority_seqZ : Forall is_priority (seqZ 0 256).
Proof. apply Forall_seqZ. unfold is_priority. lia. Qed.

Lemma rescan_cursor pq :
  pl_length (level_at pq (curLevel pq)) = 0 →
  (curLevel (rescan pq) = reset_extreme (ord pq) ∨
   (is_priority (curLevel (rescan pq)) ∧
    pl_length (level_at pq (curLevel (rescan pq))) ≠ 0)) ∧
  ∀ p, is_priority p → pl_length (level_at pq p) ≠ 0 →
       more_important (ord pq) p (curLevel (rescan pq)) = false.
Proof.
  intros E. unfold rescan. rewrite E, Z.eqb_refl.
  destruct (scan_frame (seqZ 0 256) (resetCurrentLevel pq)) as (_ & _ & _ & ->).
  destruct (resetCurrentLevel_frame pq) as (_ & -> & -> & ->).
  destruct (cursor_fold_spec (ord pq) (nonempty_at (levels pq)) (seqZ 0 256)
              (reset_extreme (ord pq)) Forall_priority_seqZ) as (Hc & Hmin & _).
  split.
  - destruct Hc as [Hc|(Hin & Hne & _)]; [by left|right].
    apply elem_of_seqZ in Hin. apply nonempty_at_true in Hne.
    split; [unfold is_priority; lia | done].
  - intros p Hp Hne. apply Hmin.
    + apply elem_of_seqZ. unfold is_priority in Hp. lia.
    + by apply nonempty_at_true.
Qed.

End RescanCursor.

(** C7 (the claim as stated fails). A queue whose only item was dequeued has
    its cursor at level 5; [Peek] on this empty queue moves the cursor to 255. *)
Lemma Peek_moves_cursor_of_drained_queue :
  let pq := (Dequeue no_fault (Enqueue no_fault (mkItem 0 5 [] [97]) (fresh ASC)).2).2 in
  Length pq = 0 ∧ curLevel pq = 5 ∧ curLevel (Peek no_fault pq).2 = 255 ∧
  ¬ (curLevel (Peek no_fault pq).2 = curLevel pq).
Proof. vm_compute. repeat split; congruence. Qed.

(** C7 (amended). [Peek] never changes a head or tail counter, the stored data
    or the ordering mode.  It leaves the cursor where it is when the current
    level holds items.  When the current level is empty it moves the cursor to
    the most important level that holds items, or to the reset value (255
    ascending, 0 descending) when it finds none. *)
Theorem Peek_frame (f : faults) (pq : PriorityQueue) :
  levels (Peek f pq).2 = levels pq ∧
  db (Peek f pq).2 = db pq ∧
  ord (Peek f pq).2 = ord pq ∧
  (pl_length (level_at pq (curLevel pq)) ≠ 0 → curLevel (Peek f pq).2 = curLevel pq) ∧
  (pl_length (level_at pq (curLevel pq)) = 0 →
     (curLevel (Peek f pq).2 = reset_extreme (ord pq) ∨
      (is_priority (curLevel (Peek f pq).2) ∧
       pl_length (level_at pq (curLevel (Peek f pq).2)) ≠ 0)) ∧
     ∀ p, is_priority p → pl_length (level_at pq p) ≠ 0 →
          more_important (ord pq) p (curLevel (Peek f pq).2) = false).
Proof.
  unfold Peek. rewrite getNextItem_state.
  destruct (rescan_frame pq) as (Hd & Ho & Hl).
  repeat split; try done.
  - intros Hne. by rewrite rescan_nonempty.
  - by apply rescan_cursor.
  - by apply rescan_cursor.
Qed.


Lemma Enqueue_success_cursor_witness :
  let pq := (Enqueue no_fault (mkItem 0 5 [] [97]) (fresh ASC)).2 in
  pl_length (level_at pq 5) = 1 ∧ curLevel pq = 5 ∧
  curLevel (Enqueue no_fault (mkItem 0 1 [] [98]) pq).2 = 1 ∧
  curLevel (Enqueue no_fault (mkItem 0 7 [] [99]) pq).2 = 5.
Proof.
  intros pq.
  destruct (Enqueue_success_cursor no_fault (mkItem 0 1 [] [98]) pq) as (_ & H1 & _);
    [reflexivity|].
  destruct (Enqueue_success_cursor no_fault (mkItem 0 7 [] [99]) pq) as (_ & _ & H2);
    [reflexivity|].
  split; [reflexivity|]. split; [reflexivity|].
  split; [apply H1; reflexivity | apply H2; reflexivity].
Defined.

(** * Recovery *)

(** Whether the prefix scan of level [p] finds a key. *)
Definition has_keys (d : gmap (list Z) (list Z)) (p : Z) : bool :=
  match iter_keys d (generatePrefix p) with
  | [] => false
  | _ :: _ => true
  end.

(** The counters [init] computes for level [p] from the store. *)
Definition recovered_level (d : gmap (list Z) (list Z)) (p : Z) : priorityLevel :=
  match iter_keys d (generatePrefix p) with
  | [] => mkLevel 0 0
  | k :: ks =>
      mkLevel (sub64 (keyToID (drop 2 k)) 1) (keyToID (drop 2 (default k (last (k :: ks)))))
  end.

Section Init.

Variable iter_err : Z → option error.

Lemma init_step_spec pq i :
  iter_err i = None →
  (init_step iter_err pq i).1 = None ∧
  db (init_step iter_err pq i).2 = db pq ∧
  ord (init_step iter_err pq i).2 = ord pq ∧
  levels (init_step iter_err pq i).2 =
    <[Z.to_nat i := recovered_level (db pq) (uint8 i)]> (levels pq) ∧
  curLevel (init_step iter_err pq i).2 =
    if more_important (ord pq) (uint8 i) (curLevel pq) && has_keys (db pq) (uint8 i)
    then uint8 i else curLevel pq.
Proof.
  intros Herr. unfold init_step, recovered_level, has_keys. rewrite Herr.
  rewrite cmp_more_important.
  destruct (iter_keys (db pq) (generatePrefix (uint8 i))) as [|k ks] eqn:E.
  - simpl. by rewrite andb_false_r.
  - rewrite andb_true_r.
    destruct (last (k :: ks)) as [k'|] eqn:El; [|by apply last_None in El].
    simpl. by destruct (more_important _ _ _).
Qed.

Lemma init_loop_spec l : ∀ pq,
  (∀ i, i ∈ l → iter_err i = None) →
  (init_loop iter_err l pq).1 = None ∧
  db (init_loop iter_err l pq).2 = db pq ∧
  ord (init_loop iter_err l pq).2 = ord pq ∧
  levels (init_loop iter_err l pq).2 =
    foldl (λ ls i, <[Z.to_nat i := recovered_level (db pq) (uint8 i)]> ls) (levels pq) l ∧
  curLevel (init_loop iter_err l pq).2 =
    cursor_fold (ord pq) (has_keys (db pq)) (curLevel pq) l.
Proof.
  induction l as [|i l IH]; intros pq Herr; [done|].
  destruct (init_step_spec pq i) as (H1 & Hd & Ho & Hl & Hc).
  { apply Herr. by left. }
  simpl. destruct (init_step iter_err pq i) as [[e|] pq1] eqn:E; simpl in *; [done|].
  destruct (IH pq1) as (H1' & Hd' & Ho' & Hl' & Hc').
  { intros j Hj. apply Herr. by right. }
  rewrite H1', Hd', Ho', Hl', Hc', Hd, Ho, Hl, Hc. done.
Qed.

End Init.

Section FoldInsert.

Context {A : Type} `{Inhabited A} (g : Z → A).

Lemma foldl_insert_length l : ∀ ls : list A,
  length (foldl (λ ls i, <[Z.to_nat i := g (uint8 i)]> ls) ls l) = length ls.
Proof.
  induction l as [|i l IH]; intros ls; [done|].
  simpl. by rewrite IH, length_insert.
Qed.

Lemma foldl_insert_lookup l : ∀ (ls : list A) p,
  Forall is_priority l → p ∈ l → (Z.to_nat p < length ls)%nat →
  foldl (λ ls i, <[Z.to_nat i := g (uint8 i)]> ls) ls l !!! Z.to_nat p = g p.
Proof.
  induction l as [|i l IH] using rev_ind; intros ls p Hl Hp Hlen.
  - by apply elem_of_nil in Hp.
  - apply Forall_app in Hl as [Hl Hi].
    apply (proj1 (Forall_singleton _ _)) in Hi. unfold is_priority in Hi.
    rewrite foldl_app. simpl.
    destruct (decide (i = p)) as [->|Hne].
    + rewrite list_lookup_total_insert_eq.
      * by rewrite uint8_small.
      * by rewrite foldl_insert_length.
    + rewrite list_lookup_total_insert_ne.
      * apply IH; [done| |done].
        apply elem_of_app in Hp as [Hp|Hp]; [done|].
        apply list_elem_of_singleton in Hp. congruence.
      * assert (0 ≤ p).
        { apply elem_of_app in Hp as [Hp|Hp].
          - rewrite Forall_forall in Hl. apply Hl in Hp. unfold is_priority in Hp. lia.
          - apply list_elem_of_singleton in Hp. lia. }
        lia.
Qed.

End FoldInsert.

Section Open.

Variables (d : gmap (list Z) (list Z)) (o : order) (iter_err : Z → option error).

Hypothesis iter_ok : ∀ i, is_priority i → iter_err i = None.

Lemma Open_ok : (OpenPriorityQueue d o iter_err).1 = None.
Proof.
  unfold OpenPriorityQueue, init.
  apply init_loop_spec. intros i Hi. apply iter_ok.
  apply elem_of_seqZ in Hi. unfold is_priority. lia.
Qed.

Lemma Open_frame :
  db (OpenPriorityQueue d o iter_err).2 = d ∧
  ord (OpenPriorityQueue d o iter_err).2 = o ∧
  length (levels (OpenPriorityQueue d o iter_err).2) = 256%nat.
Proof.
  unfold OpenPriorityQueue, init.
  set (pq0 := resetCurrentLevel _).
  destruct (init_loop_spec iter_err (seqZ 0 256) pq0) as (_ & -> & -> & -> & _).
  { intros i Hi. apply iter_ok. apply elem_of_seqZ in Hi. unfold is_priority. lia. }
  rewrite foldl_insert_length.
  unfold pq0, resetCurrentLevel. by destruct o.
Qed.

Lemma Open_level p :
  is_priority p →
  level_at (OpenPriorityQueue d o iter_err).2 p = recovered_level d p.
Proof.
  intros Hp. unfold level_at, OpenPriorityQueue, init.
  set (pq0 := resetCurrentLevel _).
  destruct (init_loop_spec iter_err (seqZ 0 256) pq0) as (_ & _ & _ & -> & _).
  { intros i Hi. apply iter_ok. apply elem_of_seqZ in Hi. unfold is_priority. lia. }
  assert (Hd : db pq0 = d) by (unfold pq0, resetCurrentLevel; by destruct o).
  assert (Hl : length (levels pq0) = 256%nat)
    by (unfold pq0, resetCurrentLevel; by destruct o).
  rewrite Hd.
  apply (foldl_insert_lookup (recovered_level d)); [apply Forall_priority_seqZ| |].
  - apply elem_of_seqZ. unfold is_priority in Hp. lia.
  - rewrite Hl. unfold is_priority in Hp. lia.
Qed.

Lemma Open_curLevel :
  curLevel (OpenPriorityQueue d o iter_err).2 =
  cursor_fold o (has_keys d) (reset_extreme o) (seqZ 0 256).
Proof.
  unfold OpenPriorityQueue, init.
  set (pq0 := resetCurrentLevel _).
  destruct (init_loop_spec iter_err (seqZ 0 256) pq0) as (_ & _ & _ & _ & ->).
  { intros i Hi. apply iter_ok. apply elem_of_seqZ in Hi. unfold is_priority. lia. }
  unfold pq0, resetCurrentLevel. by destruct o.
Qed.

Lemma reset_extreme_priority : is_priority (reset_extreme o).
Proof. unfold is_priority. destruct o; simpl; lia. Qed.

Lemma Open_curLevel_priority : is_priority (curLevel (OpenPriorityQueue d o iter_err).2).
Proof.
  rewrite Open_curLevel.
  destruct (cursor_fold_spec o (has_keys d) (seqZ 0 256) (reset_extreme o)
              Forall_priority_seqZ) as ([->|(Hin & _)] & _).
  - apply reset_extreme_priority.
  - apply elem_of_seqZ in Hin. unfold is_priority. lia.
Qed.

End Open.

Lemma cursor_fold_ext o ne1 ne2 l : ∀ c,
  Forall is_priority l → (∀ i, i ∈ l → ne1 i = ne2 i) →
  cursor_fold o ne1 c l = cursor_fold o ne2 c l.
Proof.
  induction l as [|i l IH]; intros c Hl Hext; [done|].
  apply Forall_cons in Hl as [Hi Hl]. unfold cursor_fold in *. simpl.
  rewrite (uint8_small i) by done.
  rewrite (Hext i) by by left.
  apply IH; [done|]. intros j Hj. apply Hext. by right.
Qed.

(** Recovery. A successful open gives every level the counters read from its prefix
    scan: [head = firstId - 1] and [tail = lastId] when the scan finds a key
    (first and last key of the scan), and [0, 0] when it finds none.  The
    cursor is the most important level whose scan found a key, or the reset
    value when no scan found one; it is the cursor the scan of [getNextItem]
    computes on the recovered queue whenever the levels with keys are the
    levels of nonzero length. *)
Theorem init_recovers_levels_and_cursor
    (d : gmap (list Z) (list Z)) (o : order) (iter_err : Z → option error) :
  (∀ i, is_priority i → iter_err i = None) →
  (OpenPriorityQueue d o iter_err).1 = None ∧
  (∀ p, is_priority p →
     match iter_keys d (generatePrefix p) with
     | [] =>
         head (level_at (OpenPriorityQueue d o iter_err).2 p) = 0 ∧
         tail (level_at (OpenPriorityQueue d o iter_err).2 p) = 0
     | first :: rest =>
         head (level_at (OpenPriorityQueue d o iter_err).2 p)
           = sub64 (keyToID (drop 2 first)) 1 ∧
         tail (level_at (OpenPriorityQueue d o iter_err).2 p)
           = keyToID (drop 2 (default first (last (first :: rest))))
     end) ∧
  (curLevel (OpenPriorityQueue d o iter_err).2 = reset_extreme o ∨
   (is_priority (curLevel (OpenPriorityQueue d o iter_err).2) ∧
    iter_keys d (generatePrefix (curLevel (OpenPriorityQueue d o iter_err).2)) ≠ [])) ∧
  (∀ p, is_priority p → iter_keys d (generatePrefix p) ≠ [] →
        more_important o p (curLevel (OpenPriorityQueue d o iter_err).2) = false) ∧
  ((∀ p, is_priority p →
      iter_keys d (generatePrefix p) ≠ [] ↔
      pl_length (level_at (OpenPriorityQueue d o iter_err).2 p) ≠ 0) →
   curLevel (OpenPriorityQueue d o iter_err).2 =
   curLevel (foldl scan_step (resetCurrentLevel (OpenPriorityQueue d o iter_err).2)
               (seqZ 0 256))).
Proof.
  intros Hok.
  pose proof (Open_frame d o iter_err Hok) as (Hd & Ho & Hlen).
  pose proof (cursor_fold_spec o (has_keys d) (seqZ 0 256) (reset_extreme o)
                Forall_priority_seqZ) as (Hc & Hmin & _).
  rewrite <- (Open_curLevel d o iter_err Hok) in Hc, Hmin.
  assert (Hk : ∀ p, has_keys d p = true ↔ iter_keys d (generatePrefix p) ≠ []).
  { intros p. unfold has_keys. by destruct (iter_keys d (generatePrefix p)). }
  split; [by apply Open_ok|]. split; [|split; [|split]].
  - intros p Hp. rewrite (Open_level d o iter_err Hok p Hp). unfold recovered_level.
    by destruct (iter_keys d (generatePrefix p)).
  - destruct Hc as [Hc|(Hin & Hne & _)]; [by left|right].
    apply elem_of_seqZ in Hin. split; [unfold is_priority; lia | by apply Hk].
  - intros p Hp Hne. apply Hmin; [|by apply Hk].
    apply elem_of_seqZ. unfold is_priority in Hp. lia.
  - intros Hsame.
    set (pq := (OpenPriorityQueue d o iter_err).2) in *.
    destruct (scan_frame (seqZ 0 256) (resetCurrentLevel pq)) as (_ & _ & _ & ->).
    destruct (resetCurrentLevel_frame pq) as (_ & -> & -> & ->).
    rewrite Ho. unfold pq at 1. rewrite (Open_curLevel d o iter_err Hok).
    apply cursor_fold_ext; [apply Forall_priority_seqZ|].
    intros i Hi. apply elem_of_seqZ in Hi.
    assert (Hp : is_priority i) by (unfold is_priority; lia).
    specialize (Hsame i Hp). fold pq in Hsame.
    apply eq_true_iff_eq. rewrite Hk, nonempty_at_true. exact Hsame.
Qed.


(** * The key codec *)

Section Codec.

Lemma be_bytes_length n x : length (be_bytes n x) = n.
Proof.
  revert x. induction n as [|n IH]; intros x; [done|].
  simpl. rewrite length_app, IH. simpl. lia.
Qed.

Lemma be_bytes_range n x : Forall (λ b, 0 ≤ b < 256) (be_bytes n x).
Proof.
  revert x. induction n as [|n IH]; intros x; [by constructor|].
  simpl. apply Forall_app. split; [apply IH|].
  apply Forall_singleton. apply Z.mod_pos_bound. lia.
Qed.

Lemma be_value_snoc l b : be_value (l ++ [b]) = be_value l * 256 + b.
Proof. unfold be_value. by rewrite foldl_app. Qed.

Lemma be_value_be_bytes n x :
  0 ≤ x < 256 ^ Z.of_nat n → be_value (be_bytes n x) = x.
Proof.
  revert x. induction n as [|n IH]; intros x Hx.
  - simpl in *. unfold be_value. simpl. lia.
  - simpl. rewrite be_value_snoc, IH.
    + pose proof (Z.div_mod x 256). lia.
    + rewrite Nat2Z.inj_succ, Z.pow_succ_r in Hx by lia.
      split; [apply Z.div_pos; lia|].
      apply Z.div_lt_upper_bound; lia.
Qed.

Lemma keyToID_idToKey id : 0 ≤ id < 2 ^ 64 → keyToID (idToKey id) = id.
Proof.
  intros Hid. unfold keyToID, idToKey.
  rewrite take_ge by (rewrite be_bytes_length; lia).
  apply be_value_be_bytes. simpl. lia.
Qed.

Lemma idToKey_inj id id' :
  0 ≤ id < 2 ^ 64 → 0 ≤ id' < 2 ^ 64 → idToKey id = idToKey id' → id = id'.
Proof.
  intros H H' E. rewrite <- (keyToID_idToKey id), <- (keyToID_idToKey id') by done.
  by rewrite E.
Qed.

Lemma generateKey_cons p id : generateKey p id = p :: 58 :: idToKey id.
Proof. reflexivity. Qed.

Lemma generateKey_inj p id p' id' :
  0 ≤ id < 2 ^ 64 → 0 ≤ id' < 2 ^ 64 →
  generateKey p id = generateKey p' id' → p = p' ∧ id = id'.
Proof.
  intros H H' E. rewrite !generateKey_cons in E.
  remember (idToKey id) as a eqn:Ea. remember (idToKey id') as b eqn:Eb.
  injection E as -> ->. split; [done|]. apply idToKey_inj; congruence.
Qed.

End Codec.

(** The layout of a key: ten bytes, the level and the separator first; a
    prefix scan of level [q] selects the key exactly when it was made for
    level [q]; and the id is read back from the bytes after the prefix. *)
Theorem generateKey_layout (p q id : Z) :
  0 ≤ id < 2 ^ 64 →
  length (generateKey p id) = 10%nat ∧
  take 2 (generateKey p id) = generatePrefix p ∧
  (has_prefix (generatePrefix q) (generateKey p id) = true ↔ q = p) ∧
  keyToID (drop 2 (generateKey p id)) = id.
Proof.
  intros Hid. rewrite generateKey_cons.
  split; [cbn [length]; unfold idToKey; by rewrite be_bytes_length|]. split; [done|]. split.
  - unfold generatePrefix. simpl. rewrite andb_true_r. apply Z.eqb_eq.
  - by apply keyToID_idToKey.
Qed.

Lemma generateKey_layout_witness :
  generateKey 5 258 = [5; 58; 0; 0; 0; 0; 0; 0; 1; 2] ∧
  keyToID (drop 2 (generateKey 5 258)) = 258.
Proof.
  split; [reflexivity|].
  apply (generateKey_layout 5 5 258). lia.
Defined.

(** Two keys are equal only for the same level and the same id. *)
Theorem generateKey_injective (p id p' id' : Z) :
  0 ≤ id < 2 ^ 64 → 0 ≤ id' < 2 ^ 64 →
  generateKey p id = generateKey p' id' → p = p' ∧ id = id'.
Proof.
  intros Hid Hid' E.
  assert (Hp : p = p').
  { apply (f_equal (λ k, k !! 0%nat)) in E. rewrite !generateKey_cons in E.
    by injection E. }
  split; [done|].
  assert (Hk : keyToID (drop 2 (generateKey p id)) = keyToID (drop 2 (generateKey p' id')))
    by by rewrite E.
  change (drop 2 (generateKey p id)) with (idToKey id) in Hk.
  change (drop 2 (generateKey p' id')) with (idToKey id') in Hk.
  by rewrite !keyToID_idToKey in Hk.
Qed.

Lemma generateKey_injective_witness :
  generateKey 3 (2 ^ 32 + 7) ≠ generateKey 3 7 ∧ generateKey 3 7 ≠ generateKey 4 7.
Proof.
  split; intros E.
  - destruct (generateKey_injective 3 (2 ^ 32 + 7) 3 7) as [_ H]; [lia|lia|exact E|lia].
  - destruct (generateKey_injective 3 7 4 7) as [H _]; [lia|lia|exact E|lia].
Defined.

(** * Level updates and the total length *)

(** Equality modulo [2 ^ 64]. *)
Definition eqm64 (a b : Z) : Prop := wrap64 a = wrap64 b.

Lemma wrap64_idem a : wrap64 (wrap64 a) = wrap64 a.
Proof. unfold wrap64. apply Z.mod_mod. lia. Qed.

#[global] Instance eqm64_equiv : Equivalence eqm64.
Proof.
  unfold eqm64. split.
  - by intros x.
  - by intros x y.
  - intros x y z. congruence.
Qed.

#[global] Instance add_eqm64 : Proper (eqm64 ==> eqm64 ==> eqm64) Z.add.
Proof.
  unfold eqm64, wrap64. intros a a' Ha b b' Hb.
  rewrite (Z.add_mod a), (Z.add_mod a') by lia. by rewrite Ha, Hb.
Qed.

#[global] Instance sub_eqm64 : Proper (eqm64 ==> eqm64 ==> eqm64) Z.sub.
Proof.
  unfold eqm64, wrap64. intros a a' Ha b b' Hb.
  rewrite (Zminus_mod a), (Zminus_mod a'). by rewrite Ha, Hb.
Qed.

Lemma wrap64_eqm64 a : eqm64 (wrap64 a) a.
Proof. apply wrap64_idem. Qed.

(** Proves [wrap64 a = wrap64 b] when [a] and [b] agree once the inner
    wrap-arounds are dropped. *)
Ltac wrap_eq :=
  unfold add64, sub64;
  match goal with |- wrap64 ?a = wrap64 ?b => change (eqm64 a b) end;
  rewrite ?wrap64_eqm64;
  unfold eqm64; f_equal; lia.

(** The sum of [tail - head] over the levels, before any wrap-around. *)
Definition sum_lengths (ls : list priorityLevel) : Z :=
  foldr (λ pl acc, (tail pl - head pl) + acc) 0 ls.

Section LevelUpdate.

Lemma level_lookup (ls : list priorityLevel) (i : nat) :
  (i < length ls)%nat → ls !! i = Some (ls !!! i).
Proof.
  intros Hi. apply list_lookup_lookup_total_lt. done.
Qed.

Lemma level_at_nonempty_range pq p :
  0 ≤ p → pl_length (level_at pq p) ≠ 0 → (Z.to_nat p < length (levels pq))%nat.
Proof.
  intros Hp Hne. destruct (decide (Z.to_nat p < length (levels pq))%nat) as [|Hge]; [done|].
  exfalso. apply Hne. unfold level_at.
  rewrite list_lookup_total_alt, lookup_ge_None_2 by lia. done.
Qed.

Lemma Length_sum pq : Length pq = wrap64 (sum_lengths (levels pq)).
Proof.
  unfold Length.
  assert (G : ∀ ls a, 0 ≤ a < 2 ^ 64 →
            foldl (λ length v, add64 length (pl_length v)) a ls
            = wrap64 (a + sum_lengths ls)).
  { induction ls as [|pl ls IH]; intros a Ha.
    - simpl. rewrite Z.add_0_r. symmetry. by apply wrap64_small.
    - simpl. rewrite IH by apply wrap64_range.
      unfold pl_length. wrap_eq. }
  apply G. lia.
Qed.

Lemma sum_lengths_insert ls : ∀ i old new,
  ls !! i = Some old →
  sum_lengths (<[i := new]> ls)
  = sum_lengths ls - (tail old - head old) + (tail new - head new).
Proof.
  induction ls as [|pl ls IH]; intros i old new Hi; [done|].
  destruct i as [|i]; simpl in *.
  - injection Hi as ->. lia.
  - rewrite (IH i old new Hi). lia.
Qed.

Lemma Length_incr_tail pq p :
  (Z.to_nat p < length (levels pq))%nat →
  Length (incr_tail p pq) = add64 (Length pq) 1.
Proof.
  intros Hp. rewrite !Length_sum. unfold incr_tail. simpl.
  rewrite (sum_lengths_insert _ _ (level_at pq p)) by by apply level_lookup.
  simpl. wrap_eq.
Qed.

Lemma Length_incr_head pq p :
  (Z.to_nat p < length (levels pq))%nat →
  Length (incr_head p pq) = sub64 (Length pq) 1.
Proof.
  intros Hp. rewrite !Length_sum. unfold incr_head. simpl.
  rewrite (sum_lengths_insert _ _ (level_at pq p)) by by apply level_lookup.
  simpl. wrap_eq.
Qed.

Lemma Length_congr pq1 pq2 : levels pq1 = levels pq2 → Length pq1 = Length pq2.
Proof. intros H. unfold Length. by rewrite H. Qed.

End LevelUpdate.

(** * How the operations end *)

Section Outcomes.

Lemma getItem_none_err f pq p id :
  (getItemByPriorityID f pq p id).1 = None →
  (getItemByPriorityID f pq p id = (None, Some ErrEmpty) ∧ pl_length (level_at pq p) = 0) ∨
  (getItemByPriorityID f pq p id = (None, Some ErrOutOfBounds) ∧ pl_length (level_at pq p) ≠ 0).
Proof.
  unfold getItemByPriorityID.
  destruct (pl_length (level_at pq p) =? 0) eqn:E1; [left; split; [done|lia]|].
  destruct (_ || _) eqn:E2; [right; split; [done|lia]|].
  by destruct (db_Get f (generateKey p id) (db pq)).
Qed.

Lemma getNextItem_eq f pq : getNextItem f pq = ((getNextItem f pq).1, rescan pq).
Proof. rewrite <- (getNextItem_state f pq). apply surjective_pairing. Qed.

Lemma getNextItem_none f pq :
  (getNextItem f pq).1.1 = None →
  (getNextItem f pq).1 = (None, Some ErrEmpty) ∨
  (getNextItem f pq).1 = (None, Some ErrOutOfBounds).
Proof.
  rewrite getNextItem_result.
  destruct (pl_length _ =? 0) eqn:E; [by left|].
  intros H. destruct (getItem_none_err _ _ _ _ H) as [[-> _]|[-> _]]; auto.
Qed.

Lemma Dequeue_cases f pq :
  (∃ item, getNextItem f pq = ((Some item, None), rescan pq) ∧ del_err f = None ∧
     Dequeue f pq =
     ((Some item, None),
      incr_head (curLevel (rescan pq))
        (set_db (delete (Key item) (db (rescan pq))) (rescan pq)))) ∨
  (∃ e, (Dequeue f pq).1.2 = Some e ∧ (Dequeue f pq).2 = rescan pq).
Proof.
  unfold Dequeue. rewrite (getNextItem_eq f pq).
  destruct (getNextItem f pq).1 as [[item|] [e|]] eqn:E.
  - right. by exists e.
  - unfold db_Delete. destruct (del_err f) as [e|] eqn:Ed.
    + right. by exists e.
    + left. by exists item.
  - right. by exists e.
  - exfalso. destruct (getNextItem_none f pq) as [H|H]; rewrite E in *; done.
Qed.

Lemma DequeueByPriority_cases f p pq :
  (∃ item, getItemByPriorityID f pq p (add64 (head (level_at pq p)) 1) = (Some item, None) ∧
     del_err f = None ∧
     DequeueByPriority f p pq =
     ((Some item, None), incr_head p (set_db (delete (Key item) (db pq)) pq))) ∨
  (∃ e, (DequeueByPriority f p pq).1.2 = Some e ∧ (DequeueByPriority f p pq).2 = pq).
Proof.
  unfold DequeueByPriority.
  destruct (getItemByPriorityID f pq p (add64 (head (level_at pq p)) 1))
    as [[item|] [e|]] eqn:E.
  - right. by exists e.
  - unfold db_Delete. destruct (del_err f) as [e|] eqn:Ed.
    + right. by exists e.
    + left. by exists item.
  - right. by exists e.
  - exfalso.
    destruct (getItem_none_err f pq p (add64 (head (level_at pq p)) 1)) as [[H _]|[H _]];
      rewrite E in *; done.
Qed.

Lemma rescan_curLevel_priority pq :
  is_priority (curLevel pq) → is_priority (curLevel (rescan pq)).
Proof.
  intros Hc. unfold rescan. destruct (pl_length _ =? 0); [|done].
  destruct (scan_frame (seqZ 0 256) (resetCurrentLevel pq)) as (_ & _ & _ & ->).
  destruct (resetCurrentLevel_frame pq) as (_ & -> & -> & ->).
  destruct (cursor_fold_spec (ord pq) (nonempty_at (levels pq)) (seqZ 0 256)
              (reset_extreme (ord pq)) Forall_priority_seqZ) as ([->|(Hin & _)] & _).
  - apply reset_extreme_priority.
  - apply elem_of_seqZ in Hin. unfold is_priority. lia.
Qed.

End Outcomes.

(** [Length] counts modulo [2 ^ 64]: a successful [Enqueue] adds one, a failed
    one adds nothing. *)
Theorem Length_Enqueue (f : faults) (item : PriorityItem) (pq : PriorityQueue) :
  is_priority (Priority item) → length (levels pq) = 256%nat →
  (put_err f = None → Length (Enqueue f item pq).2 = add64 (Length pq) 1) ∧
  (put_err f ≠ None → Length (Enqueue f item pq).2 = Length pq).
Proof.
  intros Hp Hlen. unfold is_priority in Hp. split; intros Hf.
  - rewrite (Length_congr _ (incr_tail (Priority item) pq)).
    + apply Length_incr_tail. lia.
    + by rewrite Enqueue_ok_levels.
  - destruct (put_err f) as [e|] eqn:E; [|done].
    by rewrite (Enqueue_failed f item pq e E).
Qed.

Lemma Length_Enqueue_witness :
  Length (Enqueue no_fault (mkItem 0 5 [] [97]) (fresh ASC)).2 = 1.
Proof.
  destruct (Length_Enqueue no_fault (mkItem 0 5 [] [97]) (fresh ASC)) as [H _].
  - unfold is_priority. simpl. lia.
  - reflexivity.
  - rewrite H by reflexivity. reflexivity.
Defined.

(** A [Dequeue] or [DequeueByPriority] that returns no error takes one off
    [Length] (modulo [2 ^ 64]); one that returns an error leaves [Length] as
    it was. *)
Theorem Length_Dequeue (f : faults) (p : Z) (pq : PriorityQueue) :
  is_priority (curLevel pq) → is_priority p →
  Length (Dequeue f pq).2 =
    (if (Dequeue f pq).1.2 is None then sub64 (Length pq) 1 else Length pq) ∧
  Length (DequeueByPriority f p pq).2 =
    (if (DequeueByPriority f p pq).1.2 is None then sub64 (Length pq) 1 else Length pq).
Proof.
  intros Hc Hp. apply rescan_curLevel_priority in Hc.
  unfold is_priority in Hc, Hp. split.
  - destruct (Dequeue_cases f pq) as [(item & Hn & _ & ->)|(e & -> & ->)]; simpl.
    + apply getNextItem_ok_inv in Hn as (_ & Hne & _).
      rewrite Length_incr_head.
      * f_equal. apply Length_congr. apply rescan_frame.
      * simpl. apply level_at_nonempty_range; [lia|done].
    + apply Length_congr. apply rescan_frame.
  - destruct (DequeueByPriority_cases f p pq) as [(item & Hn & _ & ->)|(e & -> & ->)];
      simpl; [|done].
    apply getItem_ok_inv in Hn as (_ & Hne & _).
    rewrite Length_incr_head; [done|].
    simpl. apply level_at_nonempty_range; [lia|done].
Qed.

Lemma Length_Dequeue_witness :
  let pq := (Enqueue no_fault (mkItem 0 5 [] [97]) (fresh ASC)).2 in
  Length (Dequeue no_fault pq).2 = 0 ∧ Length (DequeueByPriority no_fault 5 pq).2 = 0.
Proof.
  intros pq.
  assert (Hc : curLevel pq = 5) by reflexivity.
  destruct (Length_Dequeue no_fault 5 pq) as [H1 H2];
    [rewrite Hc; unfold is_priority; lia | unfold is_priority; lia |].
  split; [rewrite H1 | rewrite H2]; reflexivity.
Defined.

(** No call of the peek family, and no [Update], changes [Length]. *)
Theorem Length_unchanged_by_reads
    (f : faults) (pq : PriorityQueue) (offset priority id : Z)
    (item : PriorityItem) (newValue : list Z) :
  Length (Peek f pq).2 = Length pq ∧
  Length (PeekByOffset f pq offset).2 = Length pq ∧
  Length (PeekByPriorityID f priority id pq).2 = Length pq ∧
  Length (Update f item newValue pq).2 = Length pq.
Proof.
  repeat split.
  - apply Length_congr. unfold Peek. rewrite getNextItem_state. apply rescan_frame.
  - apply Length_congr. unfold PeekByOffset.
    destruct (_ <=? _); [done|]. by destruct (ord pq).
  - apply Length_congr. unfold Update, db_Put. by destruct (put_err f).
Qed.

(** * Peek and Dequeue *)

(** A second [Peek] gives the result of the first one and changes nothing
    more: repeated peeks return the identical item. *)
Theorem Peek_twice (f : faults) (pq : PriorityQueue) :
  Peek f (Peek f pq).2 = Peek f pq.
Proof.
  unfold Peek. rewrite (getNextItem_eq f (getNextItem f pq).2).
  rewrite (getNextItem_eq f pq) at 3. simpl.
  rewrite getNextItem_state.
  rewrite (getNextItem_result f (rescan pq)), (getNextItem_result f pq).
  by rewrite rescan_idem.
Qed.

(** [Dequeue] serves what [Peek] shows.  When [Peek] returns an error,
    [Dequeue] returns the same result and leaves the same state; when [Peek]
    returns an item without error, [Dequeue] returns that item. *)
Theorem Dequeue_serves_Peek (f : faults) (pq : PriorityQueue) :
  ((Peek f pq).1.2 ≠ None → Dequeue f pq = Peek f pq) ∧
  ((Peek f pq).1.2 = None → (Dequeue f pq).1.1 = (Peek f pq).1.1 ∧
                            (Dequeue f pq).1.1 ≠ None).
Proof.
  unfold Peek, Dequeue.
  destruct (getNextItem f pq) as [[[item|] [e|]] pq1] eqn:E; simpl; split; try done.
  - intros _. unfold db_Delete. by destruct (del_err f).
  - intros _. exfalso.
    destruct (getNextItem_none f pq) as [H|H]; rewrite E in *; done.
Qed.

Section DequeueEmpty.

Lemma rescan_all_empty pq :
  (∀ p, is_priority p → pl_length (level_at pq p) = 0) →
  pl_length (level_at pq (curLevel pq)) = 0 →
  curLevel (rescan pq) = reset_extreme (ord pq).
Proof.
  intros Hall Hc. destruct (rescan_cursor pq Hc) as ([H|[Hp Hne]] & _); [done|].
  exfalso. apply Hne. by apply Hall.
Qed.

Lemma rescan_cur_empty_all_empty pq :
  pl_length (level_at (rescan pq) (curLevel (rescan pq))) = 0 →
  ∀ p, is_priority p → pl_length (level_at pq p) = 0.
Proof.
  intros E p Hp.
  destruct (decide (pl_length (level_at pq (curLevel pq)) = 0)) as [Hc|Hc].
  - destruct (rescan_cursor pq Hc) as (Hcur & Hmin).
    rewrite level_at_rescan in E.
    destruct (decide (pl_length (level_at pq p) = 0)) as [|Hne]; [done|].
    exfalso. specialize (Hmin p Hp Hne).
    destruct Hcur as [Hx|[_ Hx]]; [|done].
    rewrite Hx in *. assert (p = reset_extreme (ord pq)) as ->; [|done].
    unfold is_priority in Hp. destruct (ord pq); simpl in *; lia.
  - rewrite rescan_nonempty in E by done. done.
Qed.

End DequeueEmpty.

(** [Dequeue] fails with [ErrEmpty] and no item exactly when all 256 levels
    have length zero; the counters are then untouched and the cursor is left
    at the reset value when it pointed into the level range. *)
Theorem Dequeue_empty_iff (f : faults) (pq : PriorityQueue) :
  is_priority (curLevel pq) →
  ((Dequeue f pq).1 = (None, Some ErrEmpty) ↔
   ∀ p, is_priority p → pl_length (level_at pq p) = 0) ∧
  ((Dequeue f pq).1 = (None, Some ErrEmpty) →
   levels (Dequeue f pq).2 = levels pq ∧ db (Dequeue f pq).2 = db pq ∧
   curLevel (Dequeue f pq).2 = reset_extreme (ord pq)).
Proof.
  intros Hcur.
  assert (Hfwd : (Dequeue f pq).1 = (None, Some ErrEmpty) →
                 (∀ p, is_priority p → pl_length (level_at pq p) = 0) ∧
                 (Dequeue f pq).2 = rescan pq).
  { destruct (Dequeue_cases f pq) as [(item & _ & _ & ->)|(e & He & Hs)]; [done|].
    intros H. split; [|done].
    destruct (Dequeue_serves_Peek f pq) as [Hsame Hok].
    assert (Hp : (Peek f pq).1 = (None, Some ErrEmpty)).
    { destruct (decide ((Peek f pq).1.2 = None)) as [E'|E'].
      2: { rewrite <- Hsame; done. }
      destruct Hok as [Hi Hn]; [done|]. rewrite H in Hn. done. }
    unfold Peek in Hp. rewrite getNextItem_result in Hp.
    destruct (pl_length (level_at (rescan pq) (curLevel (rescan pq))) =? 0) eqn:E.
    - apply rescan_cur_empty_all_empty. lia.
    - exfalso.
      assert (Hn : (getItemByPriorityID f (rescan pq) (curLevel (rescan pq))
                      (add64 (head (level_at (rescan pq) (curLevel (rescan pq)))) 1)).1 = None)
        by by rewrite Hp.
      destruct (getItem_none_err _ _ _ _ Hn) as [[_ H0]|[H0 _]]; [lia|].
      rewrite H0 in Hp. done. }
  split; [split|].
  - apply Hfwd.
  - intros Hall.
    assert (E : pl_length (level_at (rescan pq) (curLevel (rescan pq))) = 0).
    { rewrite level_at_rescan.
      destruct (decide (pl_length (level_at pq (curLevel pq)) = 0)) as [Hc|Hc].
      - destruct (rescan_cursor pq Hc) as ([Hx|[Hp Hne]] & _).
        + rewrite Hx. apply Hall. apply reset_extreme_priority.
        + exfalso. apply Hne. by apply Hall.
      - exfalso. apply Hc. by apply Hall. }
    unfold Dequeue. rewrite (getNextItem_eq f pq), getNextItem_result, E. done.
  - intros H. destruct (Hfwd H) as [Hall ->].
    destruct (rescan_frame pq) as (-> & _ & ->). repeat split.
    apply rescan_all_empty; [done|]. by apply Hall.
Qed.

Lemma Dequeue_empty_iff_witness :
  (Dequeue no_fault (fresh DESC)).1 = (None, Some ErrEmpty) ∧
  ∀ p, is_priority p → pl_length (level_at (fresh DESC) p) = 0.
Proof.
  assert (Hc : is_priority (curLevel (fresh DESC))).
  { assert (curLevel (fresh DESC) = 0) as -> by reflexivity. unfold is_priority. lia. }
  destruct (Dequeue_empty_iff no_fault (fresh DESC) Hc) as [[H _] _].
  split; [reflexivity|]. apply H. reflexivity.
Defined.

(** * Serving one level, reading one item, updating one item *)

Section LevelAt.

Lemma level_at_incr_head_eq pq p :
  (Z.to_nat p < length (levels pq))%nat →
  level_at (incr_head p pq) p = mkLevel (add64 (head (level_at pq p)) 1) (tail (level_at pq p)).
Proof. intros Hp. unfold incr_head, level_at. simpl. by rewrite list_lookup_total_insert_eq. Qed.

Lemma level_at_incr_head_ne pq p q :
  0 ≤ p → 0 ≤ q → p ≠ q → level_at (incr_head p pq) q = level_at pq q.
Proof.
  intros Hp Hq Hne. unfold incr_head, level_at. simpl.
  rewrite list_lookup_total_insert_ne; [done|lia].
Qed.

Lemma level_at_incr_tail_eq pq p :
  (Z.to_nat p < length (levels pq))%nat →
  level_at (incr_tail p pq) p = mkLevel (head (level_at pq p)) (add64 (tail (level_at pq p)) 1).
Proof. intros Hp. unfold incr_tail, level_at. simpl. by rewrite list_lookup_total_insert_eq. Qed.

Lemma level_at_incr_tail_ne pq p q :
  0 ≤ p → 0 ≤ q → p ≠ q → level_at (incr_tail p pq) q = level_at pq q.
Proof.
  intros Hp Hq Hne. unfold incr_tail, level_at. simpl.
  rewrite list_lookup_total_insert_ne; [done|lia].
Qed.

Lemma Enqueue_ok_level_eq f item pq :
  put_err f = None → (Z.to_nat (Priority item) < length (levels pq))%nat →
  level_at (Enqueue f item pq).2 (Priority item)
  = mkLevel (head (level_at pq (Priority item))) (add64 (tail (level_at pq (Priority item))) 1).
Proof.
  intros Hf Hp. unfold level_at. rewrite Enqueue_ok_levels by done.
  by rewrite list_lookup_total_insert_eq.
Qed.

Lemma Enqueue_level_ne f item pq q :
  0 ≤ Priority item → 0 ≤ q → q ≠ Priority item →
  level_at (Enqueue f item pq).2 q = level_at pq q.
Proof.
  intros Hp Hq Hne. destruct (put_err f) as [e|] eqn:E.
  - by rewrite (Enqueue_failed f item pq e E).
  - unfold level_at. rewrite Enqueue_ok_levels by done.
    rewrite list_lookup_total_insert_ne; [done|lia].
Qed.

End LevelAt.

(** [DequeueByPriority] serves the head of the level it is given.  It never
    moves the cursor.  On an empty level it fails with [ErrEmpty]; whenever it
    returns an error the queue is unchanged.  When it returns no error, the
    item is the stored value of id [head + 1], its key is deleted, the head of
    that level advances by one and every other level keeps its counters. *)
Theorem DequeueByPriority_spec (f : faults) (p : Z) (pq : PriorityQueue) :
  is_priority p →
  curLevel (DequeueByPriority f p pq).2 = curLevel pq ∧
  (pl_length (level_at pq p) = 0 →
     DequeueByPriority f p pq = ((None, Some ErrEmpty), pq)) ∧
  ((DequeueByPriority f p pq).1.2 ≠ None → (DequeueByPriority f p pq).2 = pq) ∧
  ((DequeueByPriority f p pq).1.2 = None →
     ∃ v, db pq !! generateKey p (add64 (head (level_at pq p)) 1) = Some v ∧
          (DequeueByPriority f p pq).1.1 =
            Some (mkItem (add64 (head (level_at pq p)) 1) p
                    (generateKey p (add64 (head (level_at pq p)) 1)) v) ∧
          db (DequeueByPriority f p pq).2 =
            delete (generateKey p (add64 (head (level_at pq p)) 1)) (db pq) ∧
          level_at (DequeueByPriority f p pq).2 p =
            mkLevel (add64 (head (level_at pq p)) 1) (tail (level_at pq p)) ∧
          ∀ q, is_priority q → q ≠ p →
               level_at (DequeueByPriority f p pq).2 q = level_at pq q).
Proof.
  intros Hp. unfold is_priority in Hp.
  destruct (DequeueByPriority_cases f p pq) as [(item & Hi & Hd & E)|(e & He & Hs)].
  - rewrite E. simpl.
    apply getItem_ok_inv in Hi as (_ & Hne & Hid & v & Hv & ->). simpl.
    split; [done|]. split; [intros H0; by rewrite H0 in Hne|].
    split; [done|]. intros _. exists v. repeat split; try done.
    + apply (level_at_incr_head_eq (set_db _ pq)). simpl.
      apply level_at_nonempty_range; [lia|done].
    + intros q Hq Hne'. unfold is_priority in Hq.
      apply (level_at_incr_head_ne (set_db _ pq)); lia.
  - rewrite Hs, He. split; [done|]. split; [|split; [done|done]].
    intros H0. unfold DequeueByPriority. by rewrite getItem_empty.
Qed.

Lemma DequeueByPriority_spec_witness :
  let pq := (Enqueue no_fault (mkItem 0 1 [] [98])
               (Enqueue no_fault (mkItem 0 5 [] [97]) (fresh ASC)).2).2 in
  curLevel pq = 1 ∧
  (DequeueByPriority no_fault 5 pq).1.1 = Some (mkItem 1 5 (generateKey 5 1) [97]) ∧
  curLevel (DequeueByPriority no_fault 5 pq).2 = 1.
Proof.
  intros pq.
  destruct (DequeueByPriority_spec no_fault 5 pq) as (Hc & _ & _ & _);
    [unfold is_priority; lia|].
  split; [reflexivity|]. split; [reflexivity|]. rewrite Hc. reflexivity.
Defined.

(** What [Enqueue] wrote is what [PeekByPriorityID] reads: the item comes back
    under the id it was given, with the value as enqueued; and every item
    that was readable before still reads the same. *)
Theorem Enqueue_then_PeekByPriorityID
    (f f' : faults) (item : PriorityItem) (pq : PriorityQueue) :
  put_err f = None → get_err f' = None →
  is_priority (Priority item) → length (levels pq) = 256%nat →
  0 ≤ head (level_at pq (Priority item)) ≤ tail (level_at pq (Priority item)) →
  tail (level_at pq (Priority item)) < 2 ^ 64 - 1 →
  Value (Enqueue f item pq).1.1 = Value item ∧
  ID (Enqueue f item pq).1.1 = tail (level_at pq (Priority item)) + 1 ∧
  (PeekByPriorityID f' (Priority item) (ID (Enqueue f item pq).1.1) (Enqueue f item pq).2).1
    = (Some (Enqueue f item pq).1.1, None) ∧
  ∀ q id, is_priority q →
    0 ≤ head (level_at pq q) < id → id ≤ tail (level_at pq q) < 2 ^ 64 →
    (PeekByPriorityID f' q id (Enqueue f item pq).2).1 = (PeekByPriorityID f' q id pq).1.
Proof.
  intros Hf Hf' Hp Hlen Hht Ht. unfold is_priority in Hp.
  set (p := Priority item) in *. set (t := tail (level_at pq p)) in *.
  set (h := head (level_at pq p)) in *.
  assert (Hid : add64 t 1 = t + 1) by (apply wrap64_small; lia).
  assert (Hlvl : level_at (Enqueue f item pq).2 p = mkLevel h (t + 1)).
  { unfold p. rewrite Enqueue_ok_level_eq by (done || lia). fold p t h. by rewrite Hid. }
  rewrite Enqueue_item. fold p t. rewrite Hid. simpl.
  split; [done|]. split; [done|]. split.
  - apply getItem_ok; [done| | |].
    + rewrite Hlvl. unfold pl_length, sub64. simpl. rewrite wrap64_small; lia.
    + rewrite Hlvl. simpl. lia.
    + rewrite Enqueue_ok_db by done. fold p t. rewrite Hid. apply lookup_insert_eq.
  - intros q id Hq Hh Htl. unfold is_priority in Hq.
    unfold getItemByPriorityID, db_Get. rewrite Hf'.
    rewrite Enqueue_ok_db by done. fold p t. rewrite Hid.
    destruct (decide (q = p)) as [->|Hqp].
    + rewrite Hlvl. fold t h in Hh, Htl. simpl.
      rewrite lookup_insert_ne.
      2: { intros E. apply generateKey_inj in E as [_ E]; lia. }
      fold h t. unfold pl_length, sub64. simpl. fold h t.
      rewrite !wrap64_small by lia.
      replace (t + 1 - h =? 0) with false by lia.
      replace (t - h =? 0) with false by lia.
      replace ((id <=? h) || (t + 1 <? id)) with false by lia.
      replace ((id <=? h) || (t <? id)) with false by lia. done.
    + rewrite (Enqueue_level_ne f item pq q) by (fold p; lia).
      rewrite lookup_insert_ne; [done|].
      intros E. apply generateKey_inj in E as [E _]; [congruence|lia|lia].
Qed.

Lemma Enqueue_then_PeekByPriorityID_witness :
  (PeekByPriorityID no_fault 5 1 (Enqueue no_fault (mkItem 0 5 [] [97]) (fresh ASC)).2).1
  = (Some (mkItem 1 5 (generateKey 5 1) [97]), None).
Proof.
  assert (Hl : level_at (fresh ASC) 5 = mkLevel 0 0) by reflexivity.
  assert (Hp : is_priority (Priority (mkItem 0 5 [] [97])))
    by (unfold is_priority; simpl; lia).
  assert (Hht : 0 ≤ head (level_at (fresh ASC) (Priority (mkItem 0 5 [] [97])))
                  ≤ tail (level_at (fresh ASC) (Priority (mkItem 0 5 [] [97]))))
    by (simpl; rewrite Hl; simpl; lia).
  assert (Ht : tail (level_at (fresh ASC) (Priority (mkItem 0 5 [] [97]))) < 2 ^ 64 - 1)
    by (simpl; rewrite Hl; simpl; lia).
  exact (proj1 (proj2 (proj2
    (Enqueue_then_PeekByPriorityID no_fault no_fault (mkItem 0 5 [] [97]) (fresh ASC)
       eq_refl eq_refl Hp eq_refl Hht Ht)))).
Defined.

(** [Update] writes the new value under the key the item carries and touches
    nothing else: no counter, not the cursor.  The caller's item holds the new
    value even when the write fails, and the store then keeps the old one.
    After a successful write, reading the item back by priority and id gives
    the new value, and reads of all other keys are as before. *)
Theorem Update_spec
    (f f' : faults) (item : PriorityItem) (newValue : list Z) (pq : PriorityQueue) :
  levels (Update f item newValue pq).2 = levels pq ∧
  curLevel (Update f item newValue pq).2 = curLevel pq ∧
  (Update f item newValue pq).1.1 = mkItem (ID item) (Priority item) (Key item) newValue ∧
  (Update f item newValue pq).1.2 = put_err f ∧
  (put_err f ≠ None → (Update f item newValue pq).2 = pq) ∧
  (put_err f = None → get_err f' = None →
     ∀ p id, Key item = generateKey p id →
       pl_length (level_at pq p) ≠ 0 →
       head (level_at pq p) < id ≤ tail (level_at pq p) →
       (PeekByPriorityID f' p id (Update f item newValue pq).2).1
       = (Some (mkItem id p (generateKey p id) newValue), None)) ∧
  (∀ p id, generateKey p id ≠ Key item →
     (PeekByPriorityID f' p id (Update f item newValue pq).2).1
     = (PeekByPriorityID f' p id pq).1).
Proof.
  unfold Update, db_Put. simpl.
  destruct (put_err f) as [e|] eqn:E; simpl.
  - repeat split; try done.
    destruct pq. done.
  - repeat split; try done.
    + intros _ Hf' p id Hk Hne Hid.
      apply getItem_ok; try done. simpl. rewrite Hk. apply lookup_insert_eq.
    + intros p id Hk. unfold getItemByPriorityID, db_Get, level_at. simpl.
      by rewrite lookup_insert_ne.
Qed.

(** * Reachable states *)

(** The calls a client can make, with the behaviour of the store during each. *)
Inductive op : Type :=
| OpEnqueue (f : faults) (item : PriorityItem)
| OpDequeue (f : faults)
| OpDequeueByPriority (f : faults) (priority : Z)
| OpPeek (f : faults)
| OpPeekByOffset (f : faults) (offset : Z)
| OpPeekByPriorityID (f : faults) (priority id : Z)
| OpUpdate (f : faults) (item : PriorityItem) (newValue : list Z).

(** The priorities passed in are [uint8] values. *)
Definition op_typed (o : op) : Prop :=
  match o with
  | OpEnqueue _ item => is_priority (Priority item)
  | OpDequeueByPriority _ priority => is_priority priority
  | _ => True
  end.

Definition step (o : op) (pq : PriorityQueue) : PriorityQueue :=
  match o with
  | OpEnqueue f item => (Enqueue f item pq).2
  | OpDequeue f => (Dequeue f pq).2
  | OpDequeueByPriority f priority => (DequeueByPriority f priority pq).2
  | OpPeek f => (Peek f pq).2
  | OpPeekByOffset f offset => (PeekByOffset f pq offset).2
  | OpPeekByPriorityID f priority id => (PeekByPriorityID f priority id pq).2
  | OpUpdate f item newValue => (Update f item newValue pq).2
  end.

Definition run (ops : list op) (pq : PriorityQueue) : PriorityQueue :=
  foldl (λ pq o, step o pq) pq ops.

(** What holds of a queue after at most [n] calls on a fresh one. *)
Record Inv (n : Z) (pq : PriorityQueue) : Prop := mkInv {
  inv_length : length (levels pq) = 256%nat;
  inv_cur : is_priority (curLevel pq);
  inv_counters : ∀ p, is_priority p →
    0 ≤ head (level_at pq p) ≤ tail (level_at pq p) ∧ tail (level_at pq p) ≤ n;
  inv_cursor : ∀ p, is_priority p →
    more_important (ord pq) p (curLevel pq) = true →
    head (level_at pq p) = tail (level_at pq p);
  inv_store : ∀ p id, is_priority p →
    head (level_at pq p) < id ≤ tail (level_at pq p) →
    is_Some (db pq !! generateKey p id)
}.

Section Invariant.

Lemma Inv_mono n m pq : n ≤ m → Inv n pq → Inv m pq.
Proof.
  intros Hnm [H1 H2 H3 H4 H5]. split; try done.
  intros p Hp. specialize (H3 p Hp). lia.
Qed.

Lemma Inv_pl_length n pq p :
  n < 2 ^ 64 → Inv n pq → is_priority p →
  pl_length (level_at pq p) = tail (level_at pq p) - head (level_at pq p).
Proof.
  intros Hn HI Hp. pose proof (inv_counters n pq HI p Hp).
  unfold pl_length, sub64. apply wrap64_small. lia.
Qed.

Lemma fresh_level o p : is_priority p → level_at (fresh o) p = mkLevel 0 0.
Proof.
  intros Hp. unfold fresh. rewrite Open_level by done.
  unfold recovered_level, iter_keys. by rewrite map_to_list_empty.
Qed.

Lemma Inv_fresh o : Inv 0 (fresh o).
Proof.
  pose proof (Open_frame ∅ o (λ _, None) (λ _ _, eq_refl)) as (Hd & Ho & Hl).
  split.
  - exact Hl.
  - by apply Open_curLevel_priority.
  - intros p Hp. rewrite fresh_level by done. simpl. lia.
  - intros p Hp _. by rewrite fresh_level.
  - intros p id Hp. rewrite fresh_level by done. simpl. lia.
Qed.

Lemma Inv_rescan n pq : n < 2 ^ 64 → Inv n pq → Inv n (rescan pq).
Proof.
  intros Hn HI. pose proof HI as [H1 H2 H3 H4 H5].
  destruct (rescan_frame pq) as (Hd & Ho & Hl).
  destruct (decide (pl_length (level_at pq (curLevel pq)) = 0)) as [Hc|Hc];
    [|by rewrite rescan_nonempty].
  destruct (rescan_cursor pq Hc) as (_ & Hmin).
  split.
  - by rewrite Hl.
  - by apply rescan_curLevel_priority.
  - intros p Hp. rewrite level_at_rescan. by apply H3.
  - intros p Hp Hmi. rewrite level_at_rescan. rewrite Ho in Hmi.
    destruct (decide (pl_length (level_at pq p) = 0)) as [H0|H0].
    + rewrite (Inv_pl_length n) in H0 by done. lia.
    + rewrite (Hmin p Hp H0) in Hmi. done.
  - intros p id Hp. rewrite level_at_rescan, Hd. by apply H5.
Qed.

Lemma more_important_strict_trans o a b c :
  more_important o a b = true → more_important o b c = true →
  more_important o a c = true.
Proof. destruct o; simpl; lia. Qed.

Lemma Inv_Enqueue n f item pq :
  n + 1 < 2 ^ 64 → is_priority (Priority item) → Inv n pq →
  Inv (n + 1) (Enqueue f item pq).2.
Proof.
  intros Hn Hp HI. pose proof HI as [H1 H2 H3 H4 H5].
  destruct (put_err f) as [e|] eqn:E.
  { rewrite (Enqueue_failed f item pq e E). simpl. apply (Inv_mono n); [lia|done]. }
  set (p := Priority item) in *.
  pose proof (H3 p Hp) as Hcp.
  assert (Hpn : (Z.to_nat p < length (levels pq))%nat)
    by (rewrite H1; unfold is_priority in Hp; lia).
  assert (Hid : add64 (tail (level_at pq p)) 1 = tail (level_at pq p) + 1)
    by (apply wrap64_small; lia).
  assert (Hlp : level_at (Enqueue f item pq).2 p
                = mkLevel (head (level_at pq p)) (tail (level_at pq p) + 1)).
  { unfold p. rewrite Enqueue_ok_level_eq by done. fold p. by rewrite Hid. }
  assert (Hlq : ∀ q, is_priority q → q ≠ p →
                level_at (Enqueue f item pq).2 q = level_at pq q).
  { intros q Hq Hne. apply Enqueue_level_ne; fold p;
      unfold is_priority in Hp, Hq; lia. }
  split.
  - rewrite Enqueue_ok_levels by done. by rewrite length_insert.
  - rewrite Enqueue_ok_curLevel by done. fold p. by destruct (more_important _ _ _).
  - intros q Hq. destruct (decide (q = p)) as [->|Hne].
    + rewrite Hlp. simpl. lia.
    + rewrite Hlq by done. specialize (H3 q Hq). lia.
  - intros q Hq. rewrite Enqueue_ord, Enqueue_ok_curLevel by done. fold p.
    intros Hmi. destruct (decide (q = p)) as [->|Hne].
    + exfalso. destruct (more_important (ord pq) p (curLevel pq)) eqn:Em.
      * by rewrite more_important_irrefl in Hmi.
      * congruence.
    + rewrite Hlq by done. apply H4; [done|].
      destruct (more_important (ord pq) p (curLevel pq)) eqn:Em; [|done].
      by apply more_important_strict_trans with p.
  - intros q id Hq. rewrite Enqueue_ok_db by done. fold p. rewrite Hid.
    destruct (decide (q = p)) as [->|Hne].
    + rewrite Hlp. simpl. intros Hrange.
      destruct (decide (id = tail (level_at pq p) + 1)) as [->|Hne'].
      * rewrite lookup_insert_eq. by eexists.
      * apply lookup_insert_is_Some'. right. apply H5; [done|lia].
    + rewrite Hlq by done. intros Hrange.
      apply lookup_insert_is_Some'. right. by apply H5.
Qed.

Lemma Inv_incr_head n pq p :
  n < 2 ^ 64 → is_priority p → Inv n pq →
  pl_length (level_at pq p) ≠ 0 →
  (more_important (ord pq) p (curLevel pq) = false) →
  Inv n (incr_head p
           (set_db (delete (generateKey p (add64 (head (level_at pq p)) 1)) (db pq)) pq)).
Proof.
  intros Hn Hp HI Hne Hnm. pose proof HI as [H1 H2 H3 H4 H5].
  pose proof (H3 p Hp) as Hcp.
  rewrite (Inv_pl_length n) in Hne by done.
  assert (Hpn : (Z.to_nat p < length (levels pq))%nat)
    by (rewrite H1; unfold is_priority in Hp; lia).
  assert (Hid : add64 (head (level_at pq p)) 1 = head (level_at pq p) + 1)
    by (apply wrap64_small; lia).
  set (pq1 := set_db _ pq).
  assert (Hlp : level_at (incr_head p pq1) p
                = mkLevel (head (level_at pq p) + 1) (tail (level_at pq p))).
  { rewrite level_at_incr_head_eq by done. unfold pq1. by rewrite <- Hid. }
  assert (Hlq : ∀ q, is_priority q → q ≠ p → level_at (incr_head p pq1) q = level_at pq q).
  { intros q Hq Hqp. apply (level_at_incr_head_ne pq1);
      unfold is_priority in Hp, Hq; lia. }
  split.
  - unfold incr_head. simpl. by rewrite length_insert.
  - done.
  - intros q Hq. destruct (decide (q = p)) as [->|Hqp].
    + rewrite Hlp. simpl. lia.
    + rewrite Hlq by done. by apply H3.
  - intros q Hq Hmi. simpl in Hmi. destruct (decide (q = p)) as [->|Hqp].
    + congruence.
    + rewrite Hlq by done. by apply H4.
  - intros q id Hq. simpl. rewrite Hid. destruct (decide (q = p)) as [->|Hqp].
    + rewrite Hlp. simpl. intros Hr. rewrite lookup_delete_ne.
      * apply H5; [done|lia].
      * intros Ek. apply generateKey_inj in Ek as [_ Ek]; lia.
    + rewrite Hlq by done. intros Hr. rewrite lookup_delete_ne.
      * by apply H5.
      * intros Ek. pose proof (H3 q Hq).
        apply generateKey_inj in Ek as [Ek _]; [congruence|lia|lia].
Qed.

Lemma Inv_Dequeue n f pq : n < 2 ^ 64 → Inv n pq → Inv n (Dequeue f pq).2.
Proof.
  intros Hn HI. apply Inv_rescan in HI; [|done].
  destruct (Dequeue_cases f pq) as [(item & Hi & _ & ->)|(e & _ & ->)]; [|done].
  simpl. apply getNextItem_ok_inv in Hi as (_ & Hne & Hget).
  apply getItem_ok_inv in Hget as (_ & _ & _ & v & _ & ->). simpl.
  apply Inv_incr_head; try done.
  - by apply inv_cur with n.
  - apply more_important_irrefl.
Qed.

Lemma Inv_DequeueByPriority n f p pq :
  n < 2 ^ 64 → is_priority p → Inv n pq → Inv n (DequeueByPriority f p pq).2.
Proof.
  intros Hn Hp HI.
  destruct (DequeueByPriority_cases f p pq) as [(item & Hi & _ & ->)|(e & _ & ->)]; [|done].
  simpl. apply getItem_ok_inv in Hi as (_ & Hne & _ & v & _ & ->). simpl.
  apply Inv_incr_head; try done.
  destruct (more_important (ord pq) p (curLevel pq)) eqn:Em; [|done].
  exfalso. rewrite (Inv_pl_length n) in Hne by done.
  pose proof (inv_cursor n pq HI p Hp Em). lia.
Qed.

Lemma Inv_Update n f item newValue pq : Inv n pq → Inv n (Update f item newValue pq).2.
Proof.
  intros [H1 H2 H3 H4 H5]. unfold Update, db_Put.
  destruct (put_err f); simpl; split; try done.
  intros p id Hp Hr. simpl. apply lookup_insert_is_Some'. right. by apply H5.
Qed.

Lemma Inv_step n o pq :
  n + 1 < 2 ^ 64 → op_typed o → Inv n pq → Inv (n + 1) (step o pq).
Proof.
  intros Hn Ho HI. destruct o; simpl in *.
  - by apply Inv_Enqueue.
  - apply (Inv_mono n); [lia|]. apply Inv_Dequeue; [lia|done].
  - apply (Inv_mono n); [lia|]. apply Inv_DequeueByPriority; [lia|done|done].
  - apply (Inv_mono n); [lia|]. unfold Peek. rewrite getNextItem_state.
    apply Inv_rescan; [lia|done].
  - apply (Inv_mono n); [lia|]. unfold PeekByOffset.
    destruct (_ <=? _); [done|]. by destruct (ord pq).
  - apply (Inv_mono n); [lia|done].
  - apply (Inv_mono n); [lia|]. by apply Inv_Update.
Qed.

Lemma Inv_run ops : ∀ n pq,
  n + Z.of_nat (length ops) < 2 ^ 64 → Forall op_typed ops → Inv n pq →
  Inv (n + Z.of_nat (length ops)) (run ops pq).
Proof.
  induction ops as [|o ops IH]; intros n pq Hn Hops HI.
  - simpl. by rewrite Z.add_0_r.
  - apply Forall_cons in Hops as [Ho Hops].
    cbn [length] in *. rewrite Nat2Z.inj_succ in *.
    replace (n + Z.succ (Z.of_nat (length ops))) with (n + 1 + Z.of_nat (length ops)) by lia.
    unfold run. simpl. apply IH; [lia|done|].
    apply Inv_step; [lia|done|done].
Qed.

End Invariant.

Section Reachable.

Lemma step_ord o pq : ord (step o pq) = ord pq.
Proof.
  destruct o; simpl.
  - apply Enqueue_ord.
  - destruct (Dequeue_cases f pq) as [(item & _ & _ & ->)|(e & _ & ->)]; simpl;
      apply rescan_frame.
  - by destruct (DequeueByPriority_cases f priority pq) as [(item & _ & _ & ->)|(e & _ & ->)].
  - unfold Peek. rewrite getNextItem_state. apply rescan_frame.
  - unfold PeekByOffset. destruct (_ <=? _); [done|]. by destruct (ord pq) eqn:E.
  - done.
  - unfold Update, db_Put. by destruct (put_err f).
Qed.

Lemma run_ord ops : ∀ pq, ord (run ops pq) = ord pq.
Proof.
  induction ops as [|o ops IH]; intros pq; [done|].
  unfold run in *. simpl. by rewrite IH, step_ord.
Qed.

Lemma fresh_ord o : ord (fresh o) = o.
Proof. apply (Open_frame ∅ o (λ _, None) (λ _ _, eq_refl)). Qed.

Lemma Inv_reachable o ops :
  Forall op_typed ops → Z.of_nat (length ops) < 2 ^ 64 →
  Inv (Z.of_nat (length ops)) (run ops (fresh o)).
Proof.
  intros Hops Hn.
  pose proof (Inv_run ops 0 (fresh o)) as H. rewrite Z.add_0_l in H.
  apply H; [done|done|apply Inv_fresh].
Qed.

End Reachable.

(** No item is lost.  After any calls on a fresh queue, whatever storage
    failures happened during them, every id between head (excluded) and tail
    (included) of a level still has its key in the store: reading it with a
    working store returns the item, never an error. *)
Theorem reachable_items_readable
    (o : order) (ops : list op) (f : faults) (p id : Z) :
  Forall op_typed ops → Z.of_nat (length ops) < 2 ^ 64 →
  is_priority p → get_err f = None →
  head (level_at (run ops (fresh o)) p) < id ≤ tail (level_at (run ops (fresh o)) p) →
  ∃ v, db (run ops (fresh o)) !! generateKey p id = Some v ∧
       (PeekByPriorityID f p id (run ops (fresh o))).1
       = (Some (mkItem id p (generateKey p id) v), None).
Proof.
  intros Hops Hn Hp Hf Hid.
  pose proof (Inv_reachable o ops Hops Hn) as HI.
  destruct (inv_store _ _ HI p id Hp Hid) as [v Hv].
  exists v. split; [done|]. unfold PeekByPriorityID. simpl.
  apply getItem_ok; try done.
  rewrite (Inv_pl_length _ _ _ Hn HI Hp). lia.
Qed.

Lemma reachable_items_readable_witness :
  ∃ v, db (run [OpEnqueue no_fault (mkItem 0 5 [] [97]);
                OpEnqueue (mkFaults (Some ErrStorage) None None) (mkItem 0 5 [] [98]);
                OpEnqueue no_fault (mkItem 0 5 [] [99]);
                OpDequeue (mkFaults None None (Some ErrStorage))] (fresh ASC))
         !! generateKey 5 2 = Some v ∧
       (PeekByPriorityID no_fault 5 2
          (run [OpEnqueue no_fault (mkItem 0 5 [] [97]);
                OpEnqueue (mkFaults (Some ErrStorage) None None) (mkItem 0 5 [] [98]);
                OpEnqueue no_fault (mkItem 0 5 [] [99]);
                OpDequeue (mkFaults None None (Some ErrStorage))] (fresh ASC))).1
       = (Some (mkItem 2 5 (generateKey 5 2) v), None).
Proof.
  apply reachable_items_readable.
  - repeat constructor; unfold is_priority; simpl; lia.
  - simpl. lia.
  - unfold is_priority. lia.
  - reflexivity.
  - assert (level_at (run [OpEnqueue no_fault (mkItem 0 5 [] [97]);
                OpEnqueue (mkFaults (Some ErrStorage) None None) (mkItem 0 5 [] [98]);
                OpEnqueue no_fault (mkItem 0 5 [] [99]);
                OpDequeue (mkFaults None None (Some ErrStorage))] (fresh ASC)) 5
            = mkLevel 0 2) as -> by reflexivity.
    simpl. lia.
Defined.

(** [Dequeue] always serves the head of the most important level that holds
    items.  After any calls on a fresh queue, a [Dequeue] with a working store
    either finds all 256 levels empty and fails with [ErrEmpty], or returns,
    without error, the stored item of id [head + 1] of a level that holds
    items and than which no level holding items is more important; the head
    of that level then equals the id served. *)
Theorem Dequeue_serves_most_important (o : order) (ops : list op) (f : faults) :
  Forall op_typed ops → Z.of_nat (length ops) < 2 ^ 64 →
  get_err f = None → del_err f = None →
  ((∀ p, is_priority p → pl_length (level_at (run ops (fresh o)) p) = 0) ∧
   (Dequeue f (run ops (fresh o))).1 = (None, Some ErrEmpty)) ∨
  (∃ item,
     (Dequeue f (run ops (fresh o))).1 = (Some item, None) ∧
     is_priority (Priority item) ∧
     pl_length (level_at (run ops (fresh o)) (Priority item)) ≠ 0 ∧
     ID item = head (level_at (run ops (fresh o)) (Priority item)) + 1 ∧
     Key item = generateKey (Priority item) (ID item) ∧
     db (run ops (fresh o)) !! Key item = Some (Value item) ∧
     (∀ q, is_priority q → pl_length (level_at (run ops (fresh o)) q) ≠ 0 →
           more_important o q (Priority item) = false) ∧
     head (level_at (Dequeue f (run ops (fresh o))).2 (Priority item)) = ID item).
Proof.
  intros Hops Hn Hg Hd.
  pose proof (Inv_reachable o ops Hops Hn) as HI.
  pose proof (run_ord ops (fresh o)) as Ho. rewrite fresh_ord in Ho.
  set (pq := run ops (fresh o)) in *.
  pose proof (Inv_rescan _ _ Hn HI) as HR.
  pose proof (inv_cur _ _ HR) as Hc.
  destruct (rescan_frame pq) as (Hdb & Hord & Hlv).
  set (c := curLevel (rescan pq)) in *.
  destruct (decide (pl_length (level_at (rescan pq) c) = 0)) as [E|E].
  - left. destruct (Dequeue_empty_iff f pq (inv_cur _ _ HI)) as [[_ H] _].
    pose proof (rescan_cur_empty_all_empty pq E) as Hall. split; [done|by apply H].
  - right.
    pose proof (inv_counters _ _ HR c Hc) as Hcnt.
    pose proof E as E'. rewrite (Inv_pl_length _ _ _ Hn HR Hc) in E'.
    assert (Hid : add64 (head (level_at (rescan pq) c)) 1 = head (level_at (rescan pq) c) + 1)
      by (apply wrap64_small; lia).
    destruct (inv_store _ _ HR c (head (level_at (rescan pq) c) + 1) Hc) as [v Hv]; [lia|].
    set (item := mkItem (head (level_at (rescan pq) c) + 1) c
                   (generateKey c (head (level_at (rescan pq) c) + 1)) v).
    assert (Hnext : getNextItem f pq = ((Some item, None), rescan pq)).
    { rewrite (getNextItem_eq f pq), getNextItem_result. fold c.
      rewrite (proj2 (Z.eqb_neq _ _) E), Hid.
      rewrite (getItem_ok f (rescan pq) c _ v); try done. lia. }
    exists item.
    assert (HD : Dequeue f pq =
                 ((Some item, None),
                  incr_head c (set_db (delete (Key item) (db (rescan pq))) (rescan pq)))).
    { unfold Dequeue. rewrite Hnext. unfold db_Delete. by rewrite Hd. }
    rewrite HD. subst item. simpl. rewrite level_at_rescan in *.
    split; [done|]. split; [done|]. split; [done|]. split; [done|]. split; [done|].
    split; [by rewrite <- Hdb|]. split.
    + intros q Hq Hne.
      destruct (more_important o q c) eqn:Em; [|done]. exfalso.
      rewrite <- Ho, <- Hord in Em. fold c in Em.
      pose proof (inv_cursor _ _ HR q Hq Em) as Heq.
      rewrite level_at_rescan in Heq.
      rewrite (Inv_pl_length _ _ _ Hn HI Hq) in Hne. lia.
    + rewrite (level_at_incr_head_eq (set_db _ (rescan pq))).
      * simpl. unfold level_at at 1. simpl. rewrite Hlv. fold (level_at pq c). done.
      * simpl. rewrite (inv_length _ _ HR). unfold is_priority in Hc. lia.
Qed.

Lemma Dequeue_serves_most_important_witness :
  (Dequeue no_fault
     (run [OpEnqueue no_fault (mkItem 0 5 [] [97]);
           OpEnqueue no_fault (mkItem 0 1 [] [98]);
           OpEnqueue no_fault (mkItem 0 5 [] [99])] (fresh ASC))).1
  = (Some (mkItem 1 1 (generateKey 1 1) [98]), None).
Proof.
  destruct (Dequeue_serves_most_important ASC
              [OpEnqueue no_fault (mkItem 0 5 [] [97]);
               OpEnqueue no_fault (mkItem 0 1 [] [98]);
               OpEnqueue no_fault (mkItem 0 5 [] [99])] no_fault)
    as [[_ H]|(item & H & _)].
  - repeat constructor; unfold is_priority; simpl; lia.
  - simpl. lia.
  - reflexivity.
  - reflexivity.
  - exfalso. vm_compute in H. congruence.
  - reflexivity.
Defined.

(** * The order of the keys and what a scan finds *)

Section KeyOrder.

Lemma bytes_leb_refl a : bytes_leb a a = true.
Proof. induction a as [|x a IH]; [done|]. simpl. rewrite IH. lia. Qed.

Lemma bytes_leb_trans a : ∀ b c,
  bytes_leb a b = true → bytes_leb b c = true → bytes_leb a c = true.
Proof.
  induction a as [|x a IH]; intros b c Hab Hbc; [done|].
  destruct b as [|y b]; [done|]. destruct c as [|z c]; [done|].
  simpl in *.
  destruct (x <? y) eqn:Exy, (y <? z) eqn:Eyz; simpl in *.
  - replace (x <? z) with true by lia. done.
  - apply andb_true_iff in Hbc as [Hyz Hbc]. replace (x <? z) with true by lia. done.
  - apply andb_true_iff in Hab as [Hxy Hab]. replace (x <? z) with true by lia. done.
  - apply andb_true_iff in Hab as [Hxy Hab]. apply andb_true_iff in Hbc as [Hyz Hbc].
    rewrite (IH b c Hab Hbc). replace (x =? z) with true by lia. by rewrite orb_true_r.
Qed.

Lemma bytes_leb_total a : ∀ b, bytes_leb a b = true ∨ bytes_leb b a = true.
Proof.
  induction a as [|x a IH]; intros b; [by left|].
  destruct b as [|y b]; [by right|]. simpl.
  destruct (IH b) as [H|H]; rewrite H;
    destruct (x <? y) eqn:E1, (y <? x) eqn:E2, (x =? y) eqn:E3, (y =? x) eqn:E4;
    simpl; auto; lia.
Qed.

#[global] Instance bytes_le_trans : Transitive bytes_le.
Proof. intros a b c. apply bytes_leb_trans. Qed.

#[global] Instance bytes_le_total : Total bytes_le.
Proof. intros a b. apply bytes_leb_total. Qed.

Lemma be_value_cons x l :
  be_value (x :: l) = x * 256 ^ Z.of_nat (length l) + be_value l.
Proof.
  unfold be_value. simpl.
  assert (G : ∀ l acc, foldl (λ acc b, acc * 256 + b) acc l
              = acc * 256 ^ Z.of_nat (length l) + foldl (λ acc b, acc * 256 + b) 0 l).
  { clear. induction l as [|y l IH]; intros acc.
    - simpl. lia.
    - cbn [foldl length]. rewrite (IH (acc * 256 + y)), (IH (0 * 256 + y)).
      rewrite Nat2Z.inj_succ, Z.pow_succ_r by lia. lia. }
  apply G.
Qed.

Lemma be_value_bound l :
  Forall (λ b, 0 ≤ b < 256) l → 0 ≤ be_value l < 256 ^ Z.of_nat (length l).
Proof.
  induction l as [|x l IH]; intros Hl.
  - unfold be_value. simpl. lia.
  - apply Forall_cons in Hl as [Hx Hl]. specialize (IH Hl).
    rewrite be_value_cons. cbn [length]. rewrite Nat2Z.inj_succ, Z.pow_succ_r by lia. nia.
Qed.

Lemma bytes_leb_be_value a : ∀ b,
  length a = length b →
  Forall (λ x, 0 ≤ x < 256) a → Forall (λ x, 0 ≤ x < 256) b →
  bytes_leb a b = true → be_value a ≤ be_value b.
Proof.
  induction a as [|x a IH]; intros b Hlen Ha Hb Hle.
  - destruct b; [done|done].
  - destruct b as [|y b]; [done|].
    apply Forall_cons in Ha as [Hx Ha]. apply Forall_cons in Hb as [Hy Hb].
    injection Hlen as Hlen. rewrite !be_value_cons, <- Hlen.
    pose proof (be_value_bound a Ha). pose proof (be_value_bound b Hb) as Hbb.
    rewrite <- Hlen in Hbb. simpl in Hle.
    destruct (x <? y) eqn:E.
    + nia.
    + apply andb_true_iff in Hle as [Hxy Hle].
      specialize (IH b Hlen Ha Hb Hle). assert (x = y) as -> by lia. lia.
Qed.

Lemma idToKey_mono a b :
  0 ≤ a < 2 ^ 64 → 0 ≤ b < 2 ^ 64 →
  bytes_le (idToKey a) (idToKey b) → a ≤ b.
Proof.
  intros Ha Hb Hle.
  rewrite <- (keyToID_idToKey a), <- (keyToID_idToKey b) by done.
  unfold keyToID, idToKey in *.
  rewrite !take_ge by (rewrite be_bytes_length; lia).
  apply bytes_leb_be_value; [by rewrite !be_bytes_length|apply be_bytes_range..|done].
Qed.

Lemma generateKey_mono p a b :
  0 ≤ a < 2 ^ 64 → 0 ≤ b < 2 ^ 64 →
  bytes_le (generateKey p a) (generateKey p b) → a ≤ b.
Proof.
  intros Ha Hb Hle. apply idToKey_mono; [done|done|].
  rewrite !generateKey_cons in Hle. unfold bytes_le in *.
  cbn [bytes_leb] in Hle.
  rewrite !Z.ltb_irrefl, !Z.eqb_refl in Hle. done.
Qed.

Lemma iter_keys_elem d prefix k :
  k ∈ iter_keys d prefix ↔ is_Some (d !! k) ∧ has_prefix prefix k = true.
Proof.
  unfold iter_keys. rewrite merge_sort_Permutation, list_elem_of_filter.
  split.
  - intros [Hp Hk]. split; [|done].
    apply list_elem_of_fmap in Hk as ([k' v] & -> & Hkv).
    apply elem_of_map_to_list in Hkv. by eexists.
  - intros [[v Hv] Hp]. split; [done|].
    apply list_elem_of_fmap. exists (k, v). split; [done|].
    by apply elem_of_map_to_list.
Qed.

Lemma iter_keys_sorted d prefix : StronglySorted bytes_le (iter_keys d prefix).
Proof. unfold iter_keys. apply StronglySorted_merge_sort; apply _. Qed.

Lemma sorted_first_le (k : list Z) ks k' :
  StronglySorted bytes_le (k :: ks) → k' ∈ k :: ks → bytes_le k k'.
Proof.
  intros Hs Hk. apply StronglySorted_inv in Hs as [_ Hall].
  apply elem_of_cons in Hk as [->|Hk].
  - apply bytes_leb_refl.
  - rewrite Forall_forall in Hall. by apply Hall.
Qed.

Lemma sorted_last_le (ks : list (list Z)) : ∀ kl k',
  StronglySorted bytes_le ks → last ks = Some kl → k' ∈ ks → bytes_le k' kl.
Proof.
  induction ks as [|k ks IH]; intros kl k' Hs Hl Hk; [by apply elem_of_nil in Hk|].
  pose proof Hs as Hs'. apply StronglySorted_inv in Hs' as [Hs' Hall].
  destruct ks as [|k2 ks].
  - simpl in Hl. injection Hl as <-.
    apply list_elem_of_singleton in Hk as ->. apply bytes_leb_refl.
  - change (last (k :: k2 :: ks)) with (last (k2 :: ks)) in Hl.
    apply elem_of_cons in Hk as [->|Hk]; [|by apply IH].
    rewrite Forall_forall in Hall. apply Hall.
    apply last_Some in Hl as [l' ->]. apply elem_of_app. right. by left.
Qed.

(** The scan of a prefix under which the keys are the encodings [enc id] of
    the ids of a range. *)
Lemma scan_of_range (d : gmap (list Z) (list Z)) prefix (enc : Z → list Z) lo hi :
  (∀ a b, 0 ≤ a < 2 ^ 64 → 0 ≤ b < 2 ^ 64 → bytes_le (enc a) (enc b) → a ≤ b) →
  0 ≤ lo → hi < 2 ^ 64 →
  (∀ k, is_Some (d !! k) ∧ has_prefix prefix k = true ↔ ∃ id, lo < id ≤ hi ∧ k = enc id) →
  (hi ≤ lo → iter_keys d prefix = []) ∧
  (lo < hi → ∃ rest, iter_keys d prefix = enc (lo + 1) :: rest ∧
                     last (iter_keys d prefix) = Some (enc hi)).
Proof.
  intros Hmono Hlo Hhi Hkeys.
  assert (Hin : ∀ k, k ∈ iter_keys d prefix ↔ ∃ id, lo < id ≤ hi ∧ k = enc id).
  { intros k. rewrite iter_keys_elem. apply Hkeys. }
  pose proof (iter_keys_sorted d prefix) as Hs.
  split.
  - intros Hle. destruct (iter_keys d prefix) as [|k ks] eqn:E; [done|].
    exfalso. assert (Hk : k ∈ k :: ks) by by left.
    apply Hin in Hk as (id & Hid & _). lia.
  - intros Hlt.
    assert (H1 : enc (lo + 1) ∈ iter_keys d prefix)
      by (apply Hin; exists (lo + 1); split; [lia|done]).
    assert (H2 : enc hi ∈ iter_keys d prefix)
      by (apply Hin; exists hi; split; [lia|done]).
    destruct (iter_keys d prefix) as [|k ks] eqn:E; [by apply elem_of_nil in H1|].
    assert (Hk : k ∈ k :: ks) by by left.
    apply Hin in Hk as (i0 & Hi0 & ->).
    exists ks. split.
    + f_equal. f_equal.
      pose proof (sorted_first_le _ _ _ Hs H1) as Hle.
      apply Hmono in Hle; lia.
    + destruct (last (enc i0 :: ks)) as [kl|] eqn:El; [|by apply last_None in El].
      assert (Hkl : kl ∈ enc i0 :: ks).
      { apply last_Some in El as [l' ->]. apply elem_of_app. right. by left. }
      apply Hin in Hkl as (il & Hil & ->).
      pose proof (sorted_last_le _ _ _ Hs El H2) as Hle.
      apply Hmono in Hle; [|lia|lia]. f_equal. f_equal. lia.
Qed.

End KeyOrder.

(** * Closing and reopening the queue *)

(** The store holds no key other than those of the items between the
    counters of the levels. *)
Definition Exact (pq : PriorityQueue) : Prop :=
  ∀ k, is_Some (db pq !! k) →
    ∃ p id, is_priority p ∧
            head (level_at pq p) < id ≤ tail (level_at pq p) ∧ k = generateKey p id.

(** Every [Update] of the sequence is given an item whose key is in the store
    at the time of the call ([Update] writes under the key the item carries,
    whether or not the queue still holds that item). *)
Fixpoint live (ops : list op) (pq : PriorityQueue) : Prop :=
  match ops with
  | [] => True
  | o :: rest =>
      match o with
      | OpUpdate _ item _ => is_Some (db pq !! Key item)
      | _ => True
      end ∧ live rest (step o pq)
  end.

Section Reopen.

Lemma has_prefix_generateKey q p id :
  has_prefix (generatePrefix q) (generateKey p id) = true ↔ q = p.
Proof.
  rewrite generateKey_cons. unfold generatePrefix. simpl.
  rewrite andb_true_r. apply Z.eqb_eq.
Qed.

Lemma Exact_fresh o : Exact (fresh o).
Proof.
  intros k [v Hv].
  pose proof (Open_frame ∅ o (λ _, None) (λ _ _, eq_refl)) as (Hd & _).
  fold (fresh o) in Hd. rewrite Hd in Hv. by rewrite lookup_empty in Hv.
Qed.

Lemma Exact_rescan pq : Exact pq → Exact (rescan pq).
Proof.
  intros HE k Hk. destruct (rescan_frame pq) as (Hd & _ & _).
  rewrite Hd in Hk. destruct (HE k Hk) as (p & id & Hp & Hr & ->).
  exists p, id. by rewrite level_at_rescan.
Qed.

Lemma Exact_Enqueue n f item pq :
  n + 1 < 2 ^ 64 → is_priority (Priority item) → Inv n pq → Exact pq →
  Exact (Enqueue f item pq).2.
Proof.
  intros Hn Hp HI HE. pose proof HI as [H1 H2 H3 H4 H5].
  destruct (put_err f) as [e|] eqn:E.
  { by rewrite (Enqueue_failed f item pq e E). }
  set (p := Priority item) in *.
  pose proof (H3 p Hp) as Hcp.
  assert (Hpn : (Z.to_nat p < length (levels pq))%nat)
    by (rewrite H1; unfold is_priority in Hp; lia).
  assert (Hid : add64 (tail (level_at pq p)) 1 = tail (level_at pq p) + 1)
    by (apply wrap64_small; lia).
  assert (Hlp : level_at (Enqueue f item pq).2 p
                = mkLevel (head (level_at pq p)) (tail (level_at pq p) + 1)).
  { unfold p. rewrite Enqueue_ok_level_eq by done. fold p. by rewrite Hid. }
  assert (Hlq : ∀ q, is_priority q → q ≠ p →
                level_at (Enqueue f item pq).2 q = level_at pq q).
  { intros q Hq Hne. apply Enqueue_level_ne; fold p;
      unfold is_priority in Hp, Hq; lia. }
  intros k. rewrite Enqueue_ok_db by done. fold p. rewrite Hid.
  intros Hk. apply lookup_insert_is_Some' in Hk as [<-|Hk].
  - exists p, (tail (level_at pq p) + 1). split; [done|]. split; [|done].
    rewrite Hlp. simpl. lia.
  - destruct (HE k Hk) as (q & id & Hq & Hr & ->). exists q, id.
    split; [done|]. split; [|done].
    destruct (decide (q = p)) as [->|Hne].
    + rewrite Hlp. simpl. lia.
    + by rewrite Hlq.
Qed.

Lemma Exact_incr_head n pq p :
  n < 2 ^ 64 → is_priority p → Inv n pq → Exact pq →
  pl_length (level_at pq p) ≠ 0 →
  Exact (incr_head p
           (set_db (delete (generateKey p (add64 (head (level_at pq p)) 1)) (db pq)) pq)).
Proof.
  intros Hn Hp HI HE Hne. pose proof HI as [H1 H2 H3 H4 H5].
  pose proof (H3 p Hp) as Hcp.
  rewrite (Inv_pl_length n) in Hne by done.
  assert (Hpn : (Z.to_nat p < length (levels pq))%nat)
    by (rewrite H1; unfold is_priority in Hp; lia).
  assert (Hid : add64 (head (level_at pq p)) 1 = head (level_at pq p) + 1)
    by (apply wrap64_small; lia).
  set (pq1 := set_db _ pq).
  assert (Hlp : level_at (incr_head p pq1) p
                = mkLevel (head (level_at pq p) + 1) (tail (level_at pq p))).
  { rewrite level_at_incr_head_eq by done. unfold pq1. by rewrite <- Hid. }
  assert (Hlq : ∀ q, is_priority q → q ≠ p → level_at (incr_head p pq1) q = level_at pq q).
  { intros q Hq Hqp. apply (level_at_incr_head_ne pq1);
      unfold is_priority in Hp, Hq; lia. }
  intros k Hk. simpl in Hk. rewrite Hid in Hk.
  apply lookup_delete_is_Some in Hk as [Hkne Hk].
  destruct (HE k Hk) as (q & id & Hq & Hr & ->). exists q, id.
  split; [done|]. split; [|done].
  destruct (decide (q = p)) as [->|Hqp].
  - rewrite Hlp. simpl.
    assert (id ≠ head (level_at pq p) + 1) by congruence. lia.
  - by rewrite Hlq.
Qed.

Lemma Exact_Dequeue n f pq :
  n < 2 ^ 64 → Inv n pq → Exact pq → Exact (Dequeue f pq).2.
Proof.
  intros Hn HI HE. apply Inv_rescan in HI; [|done]. apply Exact_rescan in HE.
  destruct (Dequeue_cases f pq) as [(item & Hi & _ & ->)|(e & _ & ->)]; [|done].
  simpl. apply getNextItem_ok_inv in Hi as (_ & Hne & Hget).
  apply getItem_ok_inv in Hget as (_ & _ & _ & v & _ & ->). simpl.
  apply (Exact_incr_head n); try done. by apply inv_cur with n.
Qed.

Lemma Exact_DequeueByPriority n f p pq :
  n < 2 ^ 64 → is_priority p → Inv n pq → Exact pq →
  Exact (DequeueByPriority f p pq).2.
Proof.
  intros Hn Hp HI HE.
  destruct (DequeueByPriority_cases f p pq) as [(item & Hi & _ & ->)|(e & _ & ->)]; [|done].
  simpl. apply getItem_ok_inv in Hi as (_ & Hne & _ & v & _ & ->). simpl.
  by apply (Exact_incr_head n).
Qed.

Lemma Exact_Update f item newValue pq :
  is_Some (db pq !! Key item) → Exact pq → Exact (Update f item newValue pq).2.
Proof.
  intros Hkey HE. unfold Update, db_Put.
  destruct (put_err f); simpl; [by destruct pq|].
  intros k Hk. simpl in Hk. apply lookup_insert_is_Some' in Hk as [<-|Hk]; by apply HE.
Qed.

Lemma Exact_run ops : ∀ n pq,
  n + Z.of_nat (length ops) < 2 ^ 64 → Forall op_typed ops → live ops pq →
  Inv n pq → Exact pq → Exact (run ops pq).
Proof.
  induction ops as [|o ops IH]; intros n pq Hn Hops Hlive HI HE; [done|].
  apply Forall_cons in Hops as [Ho Hops]. destruct Hlive as [Hl Hlive].
  cbn [length] in Hn. rewrite Nat2Z.inj_succ in Hn.
  unfold run. simpl. apply (IH (n + 1)); [lia|done|done| |].
  - apply Inv_step; [lia|done|done].
  - destruct o; simpl in *.
    + apply (Exact_Enqueue n); [lia|done|done|done].
    + apply (Exact_Dequeue n); [lia|done|done].
    + apply (Exact_DequeueByPriority n); [lia|done|done|done].
    + unfold Peek. rewrite getNextItem_state. by apply Exact_rescan.
    + unfold PeekByOffset. destruct (_ <=? _); [done|]. by destruct (ord pq).
    + done.
    + by apply Exact_Update.
Qed.

(** What the prefix scans of [init] find on the store of a queue whose keys
    are exactly those of the items between its counters. *)
Lemma scan_exact n pq p :
  n < 2 ^ 64 → Inv n pq → Exact pq → is_priority p →
  (tail (level_at pq p) = head (level_at pq p) →
   iter_keys (db pq) (generatePrefix p) = []) ∧
  (head (level_at pq p) < tail (level_at pq p) →
   ∃ rest, iter_keys (db pq) (generatePrefix p)
           = generateKey p (head (level_at pq p) + 1) :: rest ∧
           last (iter_keys (db pq) (generatePrefix p))
           = Some (generateKey p (tail (level_at pq p)))).
Proof.
  intros Hn HI HE Hp. pose proof (inv_counters _ _ HI p Hp) as Hc.
  destruct (scan_of_range (db pq) (generatePrefix p) (generateKey p)
              (head (level_at pq p)) (tail (level_at pq p))) as [Hempty Hfull].
  - apply generateKey_mono.
  - lia.
  - lia.
  - intros k. split.
    + intros [Hk Hpre]. destruct (HE k Hk) as (q & id & Hq & Hr & ->).
      apply has_prefix_generateKey in Hpre as ->. by exists id.
    + intros (id & Hr & ->). split; [by apply (inv_store n)|].
      by apply has_prefix_generateKey.
  - split; [|done]. intros E. apply Hempty. lia.
Qed.

Lemma recovered_level_exact n pq p :
  n < 2 ^ 64 → Inv n pq → Exact pq → is_priority p →
  recovered_level (db pq) p =
  if pl_length (level_at pq p) =? 0 then mkLevel 0 0 else level_at pq p.
Proof.
  intros Hn HI HE Hp. pose proof (inv_counters _ _ HI p Hp) as Hc.
  rewrite (Inv_pl_length n) by done.
  destruct (scan_exact n pq p Hn HI HE Hp) as [Hempty Hfull].
  unfold recovered_level.
  destruct (decide (tail (level_at pq p) - head (level_at pq p) = 0)) as [E|E].
  - rewrite (proj2 (Z.eqb_eq _ _) E). by rewrite Hempty by lia.
  - rewrite (proj2 (Z.eqb_neq _ _) E).
    destruct Hfull as (rest & E1 & E2); [lia|].
    rewrite E1 in E2 |- *. rewrite E2.
    change (default ?x (Some ?y)) with y.
    change (drop 2 (generateKey p ?i)) with (idToKey i).
    change (drop 2 (generateKey p ?i)) with (idToKey i).
    rewrite !keyToID_idToKey by lia.
    unfold sub64. rewrite wrap64_small by lia.
    replace (head (level_at pq p) + 1 - 1) with (head (level_at pq p)) by lia.
    by destruct (level_at pq p).
Qed.

Lemma has_keys_exact n pq p :
  n < 2 ^ 64 → Inv n pq → Exact pq → is_priority p →
  has_keys (db pq) p = nonempty_at (levels pq) p.
Proof.
  intros Hn HI HE Hp. pose proof (inv_counters _ _ HI p Hp) as Hc.
  destruct (scan_exact n pq p Hn HI HE Hp) as [Hempty Hfull].
  unfold has_keys, nonempty_at. fold (level_at pq p).
  rewrite (Inv_pl_length n) by done.
  destruct (decide (tail (level_at pq p) = head (level_at pq p))) as [E|E].
  - rewrite Hempty by done. lia.
  - destruct Hfull as (rest & -> & _); lia.
Qed.

Lemma sum_lengths_ext ls1 : ∀ ls2,
  length ls1 = length ls2 →
  (∀ i, (i < length ls1)%nat →
        tail (ls1 !!! i) - head (ls1 !!! i) = tail (ls2 !!! i) - head (ls2 !!! i)) →
  sum_lengths ls1 = sum_lengths ls2.
Proof.
  induction ls1 as [|pl ls1 IH]; intros [|pl2 ls2] Hlen Hext; try done.
  simpl in *. rewrite (IH ls2).
  - specialize (Hext 0%nat). simpl in Hext. rewrite Hext; [done|lia].
  - lia.
  - intros i Hi. apply (Hext (S i)). lia.
Qed.

Lemma getItem_congr_level f pq1 pq2 p id :
  level_at pq1 p = level_at pq2 p → db pq1 = db pq2 →
  getItemByPriorityID f pq1 p id = getItemByPriorityID f pq2 p id.
Proof. intros Hl Hd. unfold getItemByPriorityID. by rewrite Hl, Hd. Qed.

(** On a queue that satisfies the invariant the cursor [getNextItem] leaves
    is the one a full scan computes. *)
Lemma rescan_curLevel_scan n pq :
  n < 2 ^ 64 → Inv n pq →
  curLevel (rescan pq) =
  cursor_fold (ord pq) (nonempty_at (levels pq)) (reset_extreme (ord pq)) (seqZ 0 256).
Proof.
  intros Hn HI.
  destruct (cursor_fold_spec (ord pq) (nonempty_at (levels pq)) (seqZ 0 256)
              (reset_extreme (ord pq)) Forall_priority_seqZ) as (Hc & Hmin & _).
  set (c2 := cursor_fold _ _ _ _) in *.
  destruct (decide (pl_length (level_at pq (curLevel pq)) = 0)) as [E|E].
  - unfold rescan. rewrite (proj2 (Z.eqb_eq _ _) E).
    destruct (scan_frame (seqZ 0 256) (resetCurrentLevel pq)) as (_ & _ & _ & ->).
    by destruct (resetCurrentLevel_frame pq) as (_ & -> & -> & ->).
  - rewrite rescan_nonempty by done.
    pose proof (inv_cur _ _ HI) as Hcur.
    apply more_important_total with (ord pq).
    + apply Hmin.
      * apply elem_of_seqZ. unfold is_priority in Hcur. lia.
      * by apply nonempty_at_true.
    + destruct (more_important (ord pq) c2 (curLevel pq)) eqn:Em; [|done]. exfalso.
      destruct Hc as [Hc|(Hin & Hne & _)].
      * rewrite Hc in Em. clear -Em Hcur. unfold is_priority in Hcur.
        destruct (ord pq); simpl in *; lia.
      * apply elem_of_seqZ in Hin.
        assert (Hp2 : is_priority c2) by (unfold is_priority; lia).
        pose proof (inv_cursor _ _ HI c2 Hp2 Em) as H0.
        apply nonempty_at_true in Hne. fold (level_at pq c2) in Hne.
        rewrite (Inv_pl_length n) in Hne by done. lia.
Qed.

Lemma Dequeue_result f pq :
  (Dequeue f pq).1 =
  match (getNextItem f pq).1 with
  | (Some item, None) => (Some item, del_err f)
  | r => r
  end.
Proof.
  unfold Dequeue. destruct (getNextItem f pq) as [[[item|] [e|]] pq1]; try done.
  unfold db_Delete. simpl. by destruct (del_err f).
Qed.

End Reopen.

(** Closing and reopening.  Take any calls on a fresh queue, with whatever
    storage failures, every [Update] being given a key the store holds at
    that time.  Opening a queue on the store they leave succeeds and gives a
    queue with the same store and ordering; every level that holds items
    gets back exactly its [head] and [tail], and every drained level restarts
    at [0, 0]; so every level, and the queue, has the length it had.  The
    cursor is the one [getNextItem] would leave on the old queue, and the
    next [Dequeue] returns on the reopened queue what it would have returned
    on the old one. *)
Theorem reopen_recovers_queue
    (o : order) (ops : list op) (iter_err : Z → option error) (f : faults) :
  Forall op_typed ops → live ops (fresh o) → Z.of_nat (length ops) < 2 ^ 64 →
  (∀ i, is_priority i → iter_err i = None) →
  (OpenPriorityQueue (db (run ops (fresh o))) o iter_err).1 = None ∧
  db (OpenPriorityQueue (db (run ops (fresh o))) o iter_err).2 = db (run ops (fresh o)) ∧
  ord (OpenPriorityQueue (db (run ops (fresh o))) o iter_err).2 = ord (run ops (fresh o)) ∧
  (∀ p, is_priority p →
     level_at (OpenPriorityQueue (db (run ops (fresh o))) o iter_err).2 p =
     if pl_length (level_at (run ops (fresh o)) p) =? 0 then mkLevel 0 0
     else level_at (run ops (fresh o)) p) ∧
  Length (OpenPriorityQueue (db (run ops (fresh o))) o iter_err).2
    = Length (run ops (fresh o)) ∧
  curLevel (OpenPriorityQueue (db (run ops (fresh o))) o iter_err).2
    = curLevel (rescan (run ops (fresh o))) ∧
  (Dequeue f (OpenPriorityQueue (db (run ops (fresh o))) o iter_err).2).1
    = (Dequeue f (run ops (fresh o))).1.
Proof.
  intros Hops Hlive Hn Hok.
  pose proof (Inv_reachable o ops Hops Hn) as HI.
  pose proof (Exact_run ops 0 (fresh o)) as HE. rewrite Z.add_0_l in HE.
  specialize (HE Hn Hops Hlive (Inv_fresh o) (Exact_fresh o)).
  pose proof (run_ord ops (fresh o)) as Ho. rewrite fresh_ord in Ho.
  set (pq := run ops (fresh o)) in *.
  pose proof (Open_frame (db pq) o iter_err Hok) as (Hd & Hord & Hlen).
  pose proof (Open_curLevel (db pq) o iter_err Hok) as Hcur.
  assert (Hlev : ∀ p, is_priority p →
            level_at (OpenPriorityQueue (db pq) o iter_err).2 p =
            if pl_length (level_at pq p) =? 0 then mkLevel 0 0 else level_at pq p).
  { intros p Hp. rewrite (Open_level _ _ _ Hok p Hp).
    by apply (recovered_level_exact (Z.of_nat (length ops))). }
  set (pq' := (OpenPriorityQueue (db pq) o iter_err).2) in *.
  assert (Hpl : ∀ p, is_priority p → pl_length (level_at pq' p) = pl_length (level_at pq p)).
  { intros p Hp. rewrite (Hlev p Hp).
    destruct (pl_length (level_at pq p) =? 0) eqn:E; [|done].
    apply Z.eqb_eq in E. by rewrite E. }
  assert (Hne : ∀ i, i ∈ seqZ 0 256 →
            nonempty_at (levels pq') i = nonempty_at (levels pq) i).
  { intros i Hi. apply elem_of_seqZ in Hi. unfold nonempty_at.
    fold (level_at pq' i). fold (level_at pq i). rewrite Hpl; [done|].
    unfold is_priority. lia. }
  assert (Hc2 : curLevel (rescan pq) =
            cursor_fold o (nonempty_at (levels pq)) (reset_extreme o) (seqZ 0 256)).
  { rewrite <- Ho. by apply (rescan_curLevel_scan (Z.of_nat (length ops))). }
  assert (Hcur' : curLevel pq' = curLevel (rescan pq)).
  { rewrite Hcur, Hc2. apply cursor_fold_ext; [apply Forall_priority_seqZ|].
    intros i Hi. apply elem_of_seqZ in Hi.
    by apply (has_keys_exact (Z.of_nat (length ops))). }
  pose proof (rescan_curLevel_priority pq (inv_cur _ _ HI)) as Hcp.
  set (c := curLevel (rescan pq)) in *.
  assert (Hrc : curLevel (rescan pq') = c).
  { destruct (decide (pl_length (level_at pq' (curLevel pq')) = 0)) as [E|E].
    - unfold rescan. rewrite (proj2 (Z.eqb_eq _ _) E).
      destruct (scan_frame (seqZ 0 256) (resetCurrentLevel pq')) as (_ & _ & _ & ->).
      destruct (resetCurrentLevel_frame pq') as (_ & -> & -> & ->).
      rewrite Hord, Hc2. by apply cursor_fold_ext; [apply Forall_priority_seqZ|].
    - by rewrite rescan_nonempty. }
  split; [by apply Open_ok|]. split; [done|]. split; [by rewrite Ho|].
  split; [done|]. split; [|split; [done|]].
  - rewrite !Length_sum. f_equal. apply sum_lengths_ext.
    + rewrite Hlen. symmetry. apply (inv_length _ _ HI).
    + intros i Hi. rewrite Hlen in Hi.
      assert (Hp : is_priority (Z.of_nat i)) by (unfold is_priority; lia).
      pose proof (Hpl _ Hp) as Hpli.
      pose proof (Hlev _ Hp) as Hli. unfold level_at in Hli, Hpli.
      rewrite Nat2Z.id in Hli, Hpli.
      pose proof (Inv_pl_length _ _ _ Hn HI Hp) as HL. unfold level_at in HL.
      rewrite Nat2Z.id in HL.
      rewrite Hli. destruct (pl_length (levels pq !!! i) =? 0) eqn:E; [|done].
      apply Z.eqb_eq in E. simpl. lia.
  - rewrite !Dequeue_result. rewrite !getNextItem_result. rewrite Hrc. fold c.
    rewrite !level_at_rescan. rewrite (Hpl c Hcp).
    destruct (pl_length (level_at pq c) =? 0) eqn:E; [done|].
    pose proof (Hlev c Hcp) as Hl. rewrite E in Hl. rewrite Hl.
    rewrite (getItem_congr_level f (rescan pq') (rescan pq) c); [done| |].
    + by rewrite !level_at_rescan.
    + destruct (rescan_frame pq') as (-> & _). by destruct (rescan_frame pq) as (-> & _).
Qed.

Lemma reopen_recovers_queue_witness :
  level_at (OpenPriorityQueue
              (db (run [OpEnqueue no_fault (mkItem 0 5 [] [97]);
                        OpUpdate no_fault (mkItem 1 5 (generateKey 5 1) [97]) [100];
                        OpEnqueue no_fault (mkItem 0 1 [] [98]);
                        OpDequeue no_fault;
                        OpEnqueue no_fault (mkItem 0 5 [] [99])] (fresh ASC)))
              ASC (λ _, None)).2 5 = mkLevel 0 2 ∧
  level_at (OpenPriorityQueue
              (db (run [OpEnqueue no_fault (mkItem 0 5 [] [97]);
                        OpUpdate no_fault (mkItem 1 5 (generateKey 5 1) [97]) [100];
                        OpEnqueue no_fault (mkItem 0 1 [] [98]);
                        OpDequeue no_fault;
                        OpEnqueue no_fault (mkItem 0 5 [] [99])] (fresh ASC)))
              ASC (λ _, None)).2 1 = mkLevel 0 0.
Proof.
  destruct (reopen_recovers_queue ASC
              [OpEnqueue no_fault (mkItem 0 5 [] [97]);
               OpUpdate no_fault (mkItem 1 5 (generateKey 5 1) [97]) [100];
               OpEnqueue no_fault (mkItem 0 1 [] [98]);
               OpDequeue no_fault;
               OpEnqueue no_fault (mkItem 0 5 [] [99])] (λ _, None) no_fault)
    as (_ & _ & _ & Hlev & _).
  - repeat constructor; unfold is_priority; simpl; lia.
  - cbn [live]. split; [done|]. split; [|done].
    exists [97]. vm_compute. reflexivity.
  - simpl. lia.
  - done.
  - split.
    + rewrite (Hlev 5) by (unfold is_priority; lia). reflexivity.
    + rewrite (Hlev 1) by (unfold is_priority; lia). reflexivity.
Defined.

(** * Peeking by offset *)

(** [PeekByOffset] inside the current level.  After any calls on a fresh
    queue, an offset smaller than the length of the cursor's level is served
    from that level: with a working store the call returns, without error,
    the stored item of id [head + offset + 1], and the queue is unchanged. *)
Theorem PeekByOffset_current_level
    (o : order) (ops : list op) (f : faults) (offset : Z) :
  Forall op_typed ops → Z.of_nat (length ops) < 2 ^ 64 → get_err f = None →
  0 ≤ offset < pl_length (level_at (run ops (fresh o)) (curLevel (run ops (fresh o)))) →
  ∃ v,
    db (run ops (fresh o))
      !! generateKey (curLevel (run ops (fresh o)))
           (head (level_at (run ops (fresh o)) (curLevel (run ops (fresh o)))) + offset + 1)
    = Some v ∧
    PeekByOffset f (run ops (fresh o)) offset =
    ((Some (mkItem
              (head (level_at (run ops (fresh o)) (curLevel (run ops (fresh o)))) + offset + 1)
              (curLevel (run ops (fresh o)))
              (generateKey (curLevel (run ops (fresh o)))
                 (head (level_at (run ops (fresh o)) (curLevel (run ops (fresh o))))
                  + offset + 1))
              v), None),
     run ops (fresh o)).
Proof.
  intros Hops Hn Hg Hoff.
  pose proof (Inv_reachable o ops Hops Hn) as HI.
  set (pq := run ops (fresh o)) in *.
  pose proof (inv_cur _ _ HI) as Hc.
  pose proof (inv_counters _ _ HI _ Hc) as Hcnt.
  pose proof (Inv_pl_length _ _ _ Hn HI Hc) as HL.
  set (c := curLevel pq) in *.
  destruct (inv_store _ _ HI c (head (level_at pq c) + offset + 1) Hc) as [v Hv]; [lia|].
  exists v. split; [done|].
  unfold PeekByOffset. fold c.
  assert (H1 : sub64 (pl_length (level_at pq c)) 1 = pl_length (level_at pq c) - 1)
    by (apply wrap64_small; lia).
  assert (H2 : add64 (add64 (head (level_at pq c)) offset) 1
               = head (level_at pq c) + offset + 1).
  { unfold add64. rewrite (wrap64_small (_ + offset)) by lia. apply wrap64_small. lia. }
  rewrite H1, H2. replace (offset <=? _) with true by lia.
  rewrite (getItem_ok f pq c _ v); try done; lia.
Qed.

Lemma PeekByOffset_current_level_witness :
  (PeekByOffset no_fault
     (run [OpEnqueue no_fault (mkItem 0 5 [] [97]);
           OpEnqueue no_fault (mkItem 0 5 [] [98]);
           OpEnqueue no_fault (mkItem 0 5 [] [99]);
           OpDequeue no_fault] (fresh ASC)) 1).1
  = (Some (mkItem 3 5 (generateKey 5 3) [99]), None).
Proof.
  destruct (PeekByOffset_current_level ASC
              [OpEnqueue no_fault (mkItem 0 5 [] [97]);
               OpEnqueue no_fault (mkItem 0 5 [] [98]);
               OpEnqueue no_fault (mkItem 0 5 [] [99]);
               OpDequeue no_fault] no_fault 1) as (v & Hv & H).
  - repeat constructor; unfold is_priority; simpl; lia.
  - simpl. lia.
  - reflexivity.
  - assert (pl_length (level_at (run [OpEnqueue no_fault (mkItem 0 5 [] [97]);
               OpEnqueue no_fault (mkItem 0 5 [] [98]);
               OpEnqueue no_fault (mkItem 0 5 [] [99]);
               OpDequeue no_fault] (fresh ASC))
              (curLevel (run [OpEnqueue no_fault (mkItem 0 5 [] [97]);
               OpEnqueue no_fault (mkItem 0 5 [] [98]);
               OpEnqueue no_fault (mkItem 0 5 [] [99]);
               OpDequeue no_fault] (fresh ASC)))) = 2) as -> by reflexivity.
    lia.
  - rewrite H. vm_compute in Hv. injection Hv as <-. reflexivity.
Defined.

(** [PeekByOffset] against [Peek].  While the cursor's level holds items,
    offset 0 returns what [Peek] returns.  When the cursor's level is empty
    the comparison [length() - 1 >= offset] wraps around and holds for every
    offset, so [PeekByOffset] looks only at that level and fails with
    [ErrEmpty] whatever the other levels hold, and leaves the cursor where it
    was, whereas [Peek] rescans the levels. *)
Theorem PeekByOffset_and_Peek (f : faults) (pq : PriorityQueue) :
  (pl_length (level_at pq (curLevel pq)) ≠ 0 →
   (PeekByOffset f pq 0).1 = (Peek f pq).1) ∧
  (pl_length (level_at pq (curLevel pq)) = 0 →
   ∀ offset, 0 ≤ offset < 2 ^ 64 →
     PeekByOffset f pq offset = ((None, Some ErrEmpty), pq)).
Proof.
  split.
  - intros Hne. unfold Peek. rewrite getNextItem_result, rescan_nonempty by done.
    rewrite (proj2 (Z.eqb_neq _ _) Hne). unfold PeekByOffset.
    pose proof (wrap64_range (pl_length (level_at pq (curLevel pq)) - 1)) as Hr.
    unfold sub64. replace (0 <=? _) with true by lia. cbn [fst].
    f_equal. wrap_eq.
  - intros He offset Hoff. unfold PeekByOffset. rewrite He.
    assert (H1 : sub64 0 1 = 2 ^ 64 - 1) by reflexivity.
    rewrite H1. replace (offset <=? _) with true by lia.
    by rewrite getItem_empty.
Qed.

(** * Peeking by offset beyond the current level *)

(** The levels from the cursor [c] on, in the order they are served. *)
Definition served (o : order) (c : Z) : list Z :=
  match o with
  | ASC => seqZ c (256 - c)
  | DESC => reverse (seqZ 0 (c + 1))
  end.

(** The number of items the levels [l] hold together. *)
Definition span (pq : PriorityQueue) (l : list Z) : Z :=
  foldr (λ i acc, pl_length (level_at pq i) + acc) 0 l.

(** The indices [l] are priorities the guard [ge _ priority] of the loop lets
    through, each after the one before. *)
Fixpoint chain (ge : Z → Z → bool) (p : Z) (l : list Z) : Prop :=
  match l with
  | [] => True
  | i :: rest => is_priority i ∧ ge i p = true ∧ chain ge i rest
  end.

Section FindOffset.

Variable ge : Z → Z → bool.
Hypothesis ge_trans : ∀ a b c, ge a b = true → ge b c = true → ge a c = true.

Lemma chain_weaken p p' l : ge p p' = true → chain ge p l → chain ge p' l.
Proof.
  destruct l as [|i l]; [done|]. intros Hp (Hi & Hg & Hc).
  split; [done|]. split; [|done]. by apply ge_trans with p.
Qed.

Lemma span_nonneg pq l : 0 ≤ span pq l.
Proof.
  induction l as [|i l IH]; simpl; [done|].
  pose proof (pl_length_range (level_at pq i)). lia.
Qed.

Lemma span_app pq l1 l2 : span pq (l1 ++ l2) = span pq l1 + span pq l2.
Proof. induction l1 as [|i l1 IH]; simpl; [done|]. rewrite IH. lia. Qed.

Lemma findOffset_loop_skip f pq offset l : ∀ rest acc p,
  Forall (λ i, is_priority i ∧ ge i p = false) l →
  findOffset_loop ge f pq offset (l ++ rest) acc p
  = findOffset_loop ge f pq offset rest acc p.
Proof.
  induction l as [|i l IH]; intros rest acc p Hl; [done|].
  apply Forall_cons in Hl as [[Hi Hg] Hl]. simpl.
  rewrite (uint8_small i) by done. rewrite Hg. simpl. by apply IH.
Qed.

Lemma findOffset_loop_hit f pq offset q l2 l1 : ∀ acc p,
  chain ge p (l1 ++ [q]) → 0 ≤ acc →
  acc + span pq l1 ≤ offset < acc + span pq l1 + pl_length (level_at pq q) →
  acc + span pq l1 + pl_length (level_at pq q) ≤ 2 ^ 64 →
  findOffset_loop ge f pq offset (l1 ++ q :: l2) acc p
  = getItemByPriorityID f pq q (offset - (acc + span pq l1) + 1).
Proof.
  induction l1 as [|i l1 IH]; intros acc p Hch Hacc Hoff Hbound.
  - destruct Hch as (Hq & Hg & _). simpl in *.
    rewrite (uint8_small q) by done. rewrite Hg.
    pose proof (pl_length_range (level_at pq q)) as Hr.
    replace (0 <? pl_length (level_at pq q)) with true by lia. cbn [andb].
    assert (H1 : sub64 (pl_length (level_at pq q)) 1 = pl_length (level_at pq q) - 1)
      by (apply wrap64_small; lia).
    rewrite H1.
    assert (H2 : add64 acc (pl_length (level_at pq q) - 1)
                 = acc + (pl_length (level_at pq q) - 1)) by (apply wrap64_small; lia).
    rewrite H2. replace (offset <=? _) with true by lia.
    assert (H3 : add64 (sub64 offset acc) 1 = offset - (acc + 0) + 1).
    { unfold add64, sub64. rewrite (wrap64_small (offset - acc)) by lia.
      rewrite wrap64_small by lia. lia. }
    by rewrite H3.
  - destruct Hch as (Hi & Hg & Hch). cbn [app findOffset_loop].
    rewrite (uint8_small i) by done. rewrite Hg.
    pose proof (pl_length_range (level_at pq i)) as Hr.
    pose proof (span_nonneg pq l1) as Hs.
    cbn [span foldr] in Hoff, Hbound |- *. fold (span pq l1) in Hoff, Hbound |- *.
    destruct (decide (pl_length (level_at pq i) = 0)) as [E|E].
    + rewrite E in *. cbn [Z.ltb Z.compare andb].
      rewrite IH; [f_equal; lia| |done|lia|lia].
      by apply chain_weaken with i.
    + replace (0 <? pl_length (level_at pq i)) with true by lia. cbn [andb].
      assert (H1 : sub64 (pl_length (level_at pq i)) 1 = pl_length (level_at pq i) - 1)
        by (apply wrap64_small; lia).
      rewrite H1.
      assert (H2 : add64 acc (pl_length (level_at pq i) - 1)
                   = acc + (pl_length (level_at pq i) - 1)) by (apply wrap64_small; lia).
      rewrite H2. replace (offset <=? _) with false by lia.
      assert (H3 : add64 acc (add64 (pl_length (level_at pq i) - 1) 1)
                   = acc + pl_length (level_at pq i)).
      { unfold add64. rewrite (wrap64_small (_ - 1 + 1)) by lia.
        rewrite wrap64_small by lia. lia. }
      rewrite H3. rewrite IH; [f_equal; lia|done|lia|lia|lia].
Qed.

Lemma findOffset_loop_miss f pq offset l : ∀ acc p,
  chain ge p l → 0 ≤ acc → acc + span pq l ≤ offset → offset < 2 ^ 64 →
  findOffset_loop ge f pq offset l acc p = (None, Some ErrOutOfBounds).
Proof.
  induction l as [|i l IH]; intros acc p Hch Hacc Hoff Hbound; [done|].
  destruct Hch as (Hi & Hg & Hch). cbn [findOffset_loop].
  rewrite (uint8_small i) by done. rewrite Hg.
  pose proof (pl_length_range (level_at pq i)) as Hr.
  pose proof (span_nonneg pq l) as Hs.
  cbn [span foldr] in Hoff. fold (span pq l) in Hoff.
  destruct (decide (pl_length (level_at pq i) = 0)) as [E|E].
  - rewrite E in *. cbn [Z.ltb Z.compare andb].
    apply IH; [|done|lia|done]. by apply chain_weaken with i.
  - replace (0 <? pl_length (level_at pq i)) with true by lia. cbn [andb].
    assert (H1 : sub64 (pl_length (level_at pq i)) 1 = pl_length (level_at pq i) - 1)
      by (apply wrap64_small; lia).
    rewrite H1.
    assert (H2 : add64 acc (pl_length (level_at pq i) - 1)
                 = acc + (pl_length (level_at pq i) - 1)) by (apply wrap64_small; lia).
    rewrite H2. replace (offset <=? _) with false by lia.
    assert (H3 : add64 acc (add64 (pl_length (level_at pq i) - 1) 1)
                 = acc + pl_length (level_at pq i)).
    { unfold add64. rewrite (wrap64_small (_ - 1 + 1)) by lia.
      rewrite wrap64_small by lia. lia. }
    rewrite H3. apply IH; [done|lia|lia|done].
Qed.

End FindOffset.

(** The comparison of the loop's guard under each ordering. *)
Definition ge_of (o : order) : Z → Z → bool :=
  match o with
  | ASC => Z.geb
  | DESC => Z.leb
  end.

Section Served.

Lemma ge_of_trans o a b c :
  ge_of o a b = true → ge_of o b c = true → ge_of o a c = true.
Proof. destruct o; simpl; lia. Qed.

Lemma chain_prefix ge p l1 : ∀ l2, chain ge p (l1 ++ l2) → chain ge p l1.
Proof.
  revert p. induction l1 as [|i l1 IH]; intros p l2 H; [done|].
  destruct H as (Hi & Hg & H). split; [done|]. split; [done|]. by apply IH with l2.
Qed.

Lemma chain_asc (k : nat) : ∀ a p,
  p ≤ a → 0 ≤ a → a + Z.of_nat k ≤ 256 → chain Z.geb p (seqZ a (Z.of_nat k)).
Proof.
  induction k as [|k IH]; intros a p Hp Ha Hk; [done|].
  rewrite seqZ_cons by lia. cbn [chain].
  split; [unfold is_priority; lia|]. split; [lia|].
  replace (Z.pred (Z.of_nat (S k))) with (Z.of_nat k) by lia.
  apply IH; lia.
Qed.

Lemma chain_desc (k : nat) : ∀ p,
  Z.of_nat k - 1 ≤ p → Z.of_nat k ≤ 256 → chain Z.leb p (reverse (seqZ 0 (Z.of_nat k))).
Proof.
  induction k as [|k IH]; intros p Hp Hk; [done|].
  rewrite seqZ_S, reverse_app. cbn [reverse app chain]. rewrite Z.add_0_l.
  change (reverse [Z.of_nat k]) with [Z.of_nat k]. cbn [app chain].
  split; [unfold is_priority; lia|]. split; [lia|]. apply IH; lia.
Qed.

Lemma chain_served o c : is_priority c → chain (ge_of o) c (served o c).
Proof.
  intros Hc. unfold is_priority in Hc. destruct o; simpl.
  - replace (256 - c) with (Z.of_nat (Z.to_nat (256 - c))) by lia.
    apply chain_asc; lia.
  - replace (c + 1) with (Z.of_nat (Z.to_nat (c + 1))) by lia.
    apply chain_desc; lia.
Qed.

Lemma served_head o c : is_priority c → ∃ rest, served o c = c :: rest.
Proof.
  intros Hc. unfold is_priority in Hc. destruct o; simpl.
  - rewrite seqZ_cons by lia. by eexists.
  - replace (c + 1) with (Z.of_nat (S (Z.to_nat c))) by lia.
    rewrite seqZ_S, reverse_app. rewrite Z.add_0_l, Z2Nat.id by lia. by eexists.
Qed.

Lemma seqZ_split c :
  is_priority c →
  seqZ 0 256 = seqZ 0 c ++ seqZ c (256 - c) ∧
  seqZ 0 256 = seqZ 0 (c + 1) ++ seqZ (c + 1) (255 - c).
Proof.
  intros Hc. unfold is_priority in Hc. split.
  - transitivity (seqZ 0 (c + (256 - c))); [f_equal; lia|]. apply seqZ_app; lia.
  - transitivity (seqZ 0 ((c + 1) + (255 - c))); [f_equal; lia|].
    apply (seqZ_app 0 (c + 1) (255 - c)); lia.
Qed.

(** The loops of [findOffsetAsc] and [findOffsetDesc] pass over the levels
    before the cursor and then run over the levels from the cursor on. *)
Lemma findOffset_served f pq offset :
  is_priority (curLevel pq) →
  match ord pq with
  | ASC => findOffsetAsc f pq offset
  | DESC => findOffsetDesc f pq offset
  end = findOffset_loop (ge_of (ord pq)) f pq offset
          (served (ord pq) (curLevel pq)) 0 (curLevel pq).
Proof.
  intros Hc. destruct (seqZ_split _ Hc) as [Hasc Hdesc].
  unfold is_priority in Hc. destruct (ord pq); simpl.
  - unfold findOffsetAsc. rewrite Hasc. apply findOffset_loop_skip.
    apply Forall_seqZ. intros i Hi. unfold is_priority. split; lia.
  - unfold findOffsetDesc. rewrite Hdesc, reverse_app. apply findOffset_loop_skip.
    apply Forall_reverse, Forall_seqZ. intros i Hi. unfold is_priority. split; lia.
Qed.

Lemma span_reverse pq l : span pq (reverse l) = span pq l.
Proof.
  induction l as [|i l IH]; [done|].
  rewrite reverse_cons, span_app, IH. simpl. lia.
Qed.

Lemma span_zero pq l :
  Forall (λ i, pl_length (level_at pq i) = 0) l → span pq l = 0.
Proof.
  induction 1 as [|i l Hi _ IH]; [done|]. simpl. rewrite Hi, IH. done.
Qed.

Lemma sum_lengths_app l1 l2 : sum_lengths (l1 ++ l2) = sum_lengths l1 + sum_lengths l2.
Proof. induction l1 as [|pl l1 IH]; simpl; [done|]. rewrite IH. lia. Qed.

Lemma span_ext pq1 pq2 l :
  Forall (λ i, pl_length (level_at pq1 i) = pl_length (level_at pq2 i)) l →
  span pq1 l = span pq2 l.
Proof. induction 1 as [|i l Hi _ IH]; [done|]. simpl. by rewrite Hi, IH. Qed.

(** Summing the levels by index is summing the list of levels. *)
Lemma sum_lengths_index (ls : list priorityLevel) :
  sum_lengths ls =
  foldr (λ i acc, (tail (ls !!! Z.to_nat i) - head (ls !!! Z.to_nat i)) + acc) 0
    (seqZ 0 (Z.of_nat (length ls))).
Proof.
  induction ls as [|x ls IH] using rev_ind; [done|].
  rewrite sum_lengths_app, length_app. cbn [length sum_lengths foldr].
  replace (length ls + 1)%nat with (S (length ls)) by lia.
  rewrite seqZ_S, foldr_app. cbn [foldr]. rewrite Z.add_0_l, Nat2Z.id.
  rewrite list_lookup_total_middle by done.
  rewrite IH.
  assert (G : ∀ (l : list Z) a,
            Forall (λ i, 0 ≤ i < Z.of_nat (length ls)) l →
            foldr (λ i acc, (tail ((ls ++ [x]) !!! Z.to_nat i)
                             - head ((ls ++ [x]) !!! Z.to_nat i)) + acc) a l
            = foldr (λ i acc, (tail (ls !!! Z.to_nat i)
                               - head (ls !!! Z.to_nat i)) + acc) 0 l + a).
  { induction l as [|i l IHl]; intros a Hl; [done|].
    apply Forall_cons in Hl as [Hi Hl]. simpl. rewrite IHl by done.
    rewrite lookup_total_app_l by lia. lia. }
  rewrite G; [lia|]. apply Forall_seqZ. lia.
Qed.

End Served.

Section Total.

Lemma span_all n pq :
  n < 2 ^ 64 → Inv n pq → span pq (seqZ 0 256) = sum_lengths (levels pq).
Proof.
  intros Hn HI. rewrite sum_lengths_index, (inv_length _ _ HI).
  change (Z.of_nat 256) with 256. unfold span.
  assert (G : ∀ l, Forall is_priority l →
            foldr (λ i acc, pl_length (level_at pq i) + acc) 0 l =
            foldr (λ i acc, (tail (levels pq !!! Z.to_nat i)
                             - head (levels pq !!! Z.to_nat i)) + acc) 0 l).
  { induction 1 as [|i l Hi _ IH]; [done|]. cbn [foldr]. rewrite IH.
    by rewrite (Inv_pl_length n pq i Hn HI Hi). }
  apply G, Forall_priority_seqZ.
Qed.

(** The levels more important than the cursor are empty, so the levels from
    the cursor on hold all the items. *)
Lemma span_served n pq :
  n < 2 ^ 64 → Inv n pq →
  span pq (served (ord pq) (curLevel pq)) = sum_lengths (levels pq).
Proof.
  intros Hn HI. rewrite <- (span_all n) by done.
  pose proof (inv_cur _ _ HI) as Hc.
  destruct (seqZ_split _ Hc) as [Hasc Hdesc].
  assert (Hempty : ∀ i, is_priority i →
            more_important (ord pq) i (curLevel pq) = true →
            pl_length (level_at pq i) = 0).
  { intros i Hi Hm. rewrite (Inv_pl_length n) by done.
    rewrite (inv_cursor _ _ HI i Hi Hm). lia. }
  unfold is_priority in Hc.
  destruct (ord pq) eqn:Eo; cbn [served].
  - rewrite Hasc, span_app. rewrite (span_zero pq (seqZ 0 _)); [done|].
    apply Forall_seqZ. intros i Hi. apply Hempty; [unfold is_priority; lia|].
    simpl. lia.
  - rewrite Hdesc, span_app, span_reverse.
    rewrite (span_zero pq (seqZ (_ + 1) _)); [lia|].
    apply Forall_seqZ. intros i Hi. apply Hempty; [unfold is_priority; lia|].
    simpl. lia.
Qed.

Lemma total_step n o pq :
  n + 1 < 2 ^ 64 → op_typed o → Inv n pq →
  sum_lengths (levels (step o pq)) ≤ sum_lengths (levels pq) + 1.
Proof.
  intros Hn Ho HI.
  assert (Hhead : ∀ p, is_priority p → pl_length (level_at pq p) ≠ 0 →
            sum_lengths (<[Z.to_nat p := mkLevel (add64 (head (level_at pq p)) 1)
                                                  (tail (level_at pq p))]> (levels pq))
            ≤ sum_lengths (levels pq) + 1).
  { intros p Hp Hne. pose proof (inv_counters _ _ HI p Hp) as Hc.
    rewrite (Inv_pl_length n) in Hne by (done || lia).
    rewrite (sum_lengths_insert _ _ (level_at pq p)).
    - simpl. unfold add64. rewrite wrap64_small by lia. lia.
    - apply level_lookup. rewrite (inv_length _ _ HI). unfold is_priority in Hp. lia. }
  destruct o; simpl in *.
  - destruct (put_err f) as [e|] eqn:E.
    + rewrite (Enqueue_failed f item pq e E). simpl. lia.
    + rewrite Enqueue_ok_levels by done.
      pose proof (inv_counters _ _ HI _ Ho) as Hc.
      rewrite (sum_lengths_insert _ _ (level_at pq (Priority item))).
      * simpl. unfold add64. rewrite wrap64_small by lia. lia.
      * apply level_lookup. rewrite (inv_length _ _ HI). unfold is_priority in Ho. lia.
  - destruct (rescan_frame pq) as (_ & _ & Hl).
    destruct (Dequeue_cases f pq) as [(item & Hi & _ & ->)|(e & _ & ->)];
      [|rewrite Hl; lia].
    apply getNextItem_ok_inv in Hi as (_ & Hne & _).
    unfold incr_head, level_at. cbn [levels set_levels set_db]. rewrite Hl.
    fold (level_at pq (curLevel (rescan pq))).
    apply Hhead.
    + apply rescan_curLevel_priority, (inv_cur _ _ HI).
    + by rewrite level_at_rescan in Hne.
  - destruct (DequeueByPriority_cases f priority pq) as [(item & Hi & _ & ->)|(e & _ & ->)];
      [|lia].
    apply getItem_ok_inv in Hi as (_ & Hne & _).
    unfold incr_head, level_at. cbn [levels set_levels set_db].
    fold (level_at pq priority). by apply Hhead.
  - unfold Peek. rewrite getNextItem_state.
    destruct (rescan_frame pq) as (_ & _ & ->). lia.
  - unfold PeekByOffset. destruct (_ <=? _); [simpl; lia|]. destruct (ord pq); simpl; lia.
  - lia.
  - unfold Update, db_Put. destruct (put_err f); simpl; lia.
Qed.

Lemma total_run ops : ∀ n pq,
  n + Z.of_nat (length ops) < 2 ^ 64 → Forall op_typed ops → Inv n pq →
  sum_lengths (levels (run ops pq)) ≤ sum_lengths (levels pq) + Z.of_nat (length ops).
Proof.
  induction ops as [|o ops IH]; intros n pq Hn Hops HI; [simpl; lia|].
  apply Forall_cons in Hops as [Ho Hops].
  cbn [length] in *. rewrite Nat2Z.inj_succ in *.
  unfold run. simpl. fold (run ops (step o pq)).
  assert (HI' : Inv (n + 1) (step o pq)) by (apply Inv_step; [lia|done|done]).
  assert (Hs : sum_lengths (levels (step o pq)) ≤ sum_lengths (levels pq) + 1)
    by (apply (total_step n); [lia|done|done]).
  assert (Hr : sum_lengths (levels (run ops (step o pq)))
               ≤ sum_lengths (levels (step o pq)) + Z.of_nat (length ops))
    by (apply (IH (n + 1)); [lia|done|done]).
  lia.
Qed.

Lemma total_reachable o ops :
  Forall op_typed ops → Z.of_nat (length ops) < 2 ^ 64 →
  0 ≤ sum_lengths (levels (run ops (fresh o))) < 2 ^ 64.
Proof.
  intros Hops Hn.
  pose proof (Inv_reachable o ops Hops Hn) as HI.
  pose proof (total_run ops 0 (fresh o)) as Ht. rewrite Z.add_0_l in Ht.
  specialize (Ht Hn Hops (Inv_fresh o)).
  assert (H0 : sum_lengths (levels (fresh o)) = 0).
  { rewrite <- (span_all 0) by (done || apply Inv_fresh).
    apply span_zero, Forall_seqZ. intros i Hi. rewrite fresh_level; [done|].
    unfold is_priority. lia. }
  rewrite <- (span_all _ _ Hn HI) in *. pose proof (span_nonneg (run ops (fresh o)) (seqZ 0 256)).
  lia.
Qed.

End Total.

Lemma chain_priority ge l : ∀ p, chain ge p l → Forall is_priority l.
Proof.
  induction l as [|i l IH]; intros p H; [done|].
  destruct H as (Hi & _ & H). apply Forall_cons. split; [done|]. by apply IH with i.
Qed.

(** The part of [PeekByOffset] before the search: with a current level that
    holds items and an offset at least its length, the call is the search
    over the levels from the cursor on. *)
Lemma PeekByOffset_search f pq offset :
  is_priority (curLevel pq) →
  pl_length (level_at pq (curLevel pq)) ≠ 0 →
  pl_length (level_at pq (curLevel pq)) ≤ offset →
  PeekByOffset f pq offset =
  (findOffset_loop (ge_of (ord pq)) f pq offset
     (served (ord pq) (curLevel pq)) 0 (curLevel pq), pq).
Proof.
  intros Hc Hne Hoff. rewrite <- findOffset_served by done.
  unfold PeekByOffset.
  pose proof (pl_length_range (level_at pq (curLevel pq))) as Hr.
  assert (H1 : sub64 (pl_length (level_at pq (curLevel pq))) 1
               = pl_length (level_at pq (curLevel pq)) - 1) by (apply wrap64_small; lia).
  rewrite H1. replace (offset <=? _) with false by lia.
  by destruct (ord pq).
Qed.

(** [PeekByOffset] beyond the current level.  After any calls on a fresh
    queue whose cursor's level holds items, list the levels from the cursor
    on in serving order, and let [q] be the level an offset falls in: the
    levels [l1] before [q] in that list hold at most [offset] items, and
    with those of [q] more than [offset].  When [q] is not the cursor's level
    the call looks up in level [q] the id [offset - span l1 + 1], counted
    from 1 and not from the head of [q]: it fails with [ErrOutOfBounds] when
    that id is at most the head of [q], and otherwise returns, with a working
    store, the stored item of that id.  The queue is unchanged. *)
Theorem PeekByOffset_later_level
    (o : order) (ops : list op) (f : faults) (offset q : Z) (l1 l2 : list Z)
    (pq : PriorityQueue) :
  pq = run ops (fresh o) →
  Forall op_typed ops → Z.of_nat (length ops) < 2 ^ 64 →
  pl_length (level_at pq (curLevel pq)) ≠ 0 →
  served o (curLevel pq) = l1 ++ q :: l2 → l1 ≠ [] →
  span pq l1 ≤ offset < span pq l1 + pl_length (level_at pq q) →
  PeekByOffset f pq offset
    = (getItemByPriorityID f pq q (offset - span pq l1 + 1), pq) ∧
  (offset - span pq l1 + 1 ≤ head (level_at pq q) →
     PeekByOffset f pq offset = ((None, Some ErrOutOfBounds), pq)) ∧
  (head (level_at pq q) < offset - span pq l1 + 1 → get_err f = None →
     ∃ v, db pq !! generateKey q (offset - span pq l1 + 1) = Some v ∧
          PeekByOffset f pq offset =
          ((Some (mkItem (offset - span pq l1 + 1) q
                    (generateKey q (offset - span pq l1 + 1)) v), None), pq)).
Proof.
  intros Hpq Hops Hn Hne Hserved Hl1 Hoff.
  pose proof (Inv_reachable o ops Hops Hn) as HI.
  pose proof (total_reachable o ops Hops Hn) as Htot.
  pose proof (run_ord ops (fresh o)) as Ho. rewrite fresh_ord in Ho.
  rewrite <- Hpq in HI, Htot, Ho. clear Hpq.
  pose proof (inv_cur _ _ HI) as Hc.
  pose proof (chain_served o _ Hc) as Hch. rewrite Hserved in Hch.
  assert (Hmid : l1 ++ q :: l2 = (l1 ++ [q]) ++ l2) by by rewrite <- app_assoc.
  rewrite Hmid in Hch. apply chain_prefix in Hch.
  assert (Hq : is_priority q).
  { apply chain_priority in Hch. apply Forall_app in Hch as [_ Hch].
    by apply (proj1 (Forall_singleton _ _)) in Hch. }
  pose proof (span_served _ _ Hn HI) as Hsp. rewrite Ho, Hserved, span_app in Hsp.
  cbn [span foldr] in Hsp. fold (span pq l2) in Hsp.
  pose proof (span_nonneg pq l2) as Hl2.
  destruct (served_head o _ Hc) as [rest Hhd]. rewrite Hserved in Hhd.
  destruct l1 as [|c l1]; [done|]. injection Hhd as -> _.
  pose proof (span_nonneg pq l1) as Hl1'.
  cbn [span foldr] in Hoff, Hsp |- *. fold (span pq l1) in Hoff, Hsp |- *.
  set (B := pl_length (level_at pq (curLevel pq)) + span pq l1) in *.
  assert (Hmain : PeekByOffset f pq offset
                  = (getItemByPriorityID f pq q (offset - B + 1), pq)).
  { rewrite PeekByOffset_search; [|done|done|lia].
    rewrite Ho, Hserved.
    rewrite (findOffset_loop_hit (ge_of o) (ge_of_trans o) f pq offset q l2
               (curLevel pq :: l1) 0 (curLevel pq)).
    - cbn [span foldr]. fold (span pq l1). fold B. do 2 f_equal.
    - done.
    - done.
    - cbn [span foldr]. fold (span pq l1). fold B. lia.
    - cbn [span foldr]. fold (span pq l1). fold B. lia. }
  pose proof (inv_counters _ _ HI q Hq) as Hcq.
  pose proof (Inv_pl_length _ _ _ Hn HI Hq) as HLq.
  split; [done|]. split.
  - intros Hle. rewrite Hmain. f_equal. unfold getItemByPriorityID.
    replace (pl_length (level_at pq q) =? 0) with false by lia.
    replace (_ || _) with true by lia. done.
  - intros Hlt Hg.
    destruct (inv_store _ _ HI q (offset - B + 1) Hq) as [v Hv]; [lia|].
    exists v. split; [done|]. rewrite Hmain. f_equal.
    apply getItem_ok; try done; lia.
Qed.

Lemma PeekByOffset_later_level_witness :
  PeekByOffset no_fault
    (run [OpEnqueue no_fault (mkItem 0 1 [] [97]);
          OpEnqueue no_fault (mkItem 0 5 [] [98]);
          OpEnqueue no_fault (mkItem 0 5 [] [99])] (fresh ASC)) 2
  = (getItemByPriorityID no_fault
       (run [OpEnqueue no_fault (mkItem 0 1 [] [97]);
             OpEnqueue no_fault (mkItem 0 5 [] [98]);
             OpEnqueue no_fault (mkItem 0 5 [] [99])] (fresh ASC)) 5 2,
     run [OpEnqueue no_fault (mkItem 0 1 [] [97]);
          OpEnqueue no_fault (mkItem 0 5 [] [98]);
          OpEnqueue no_fault (mkItem 0 5 [] [99])] (fresh ASC)).
Proof.
  assert (Hc : curLevel (run [OpEnqueue no_fault (mkItem 0 1 [] [97]);
                              OpEnqueue no_fault (mkItem 0 5 [] [98]);
                              OpEnqueue no_fault (mkItem 0 5 [] [99])] (fresh ASC)) = 1)
    by reflexivity.
  assert (H1 : pl_length (level_at (run [OpEnqueue no_fault (mkItem 0 1 [] [97]);
                              OpEnqueue no_fault (mkItem 0 5 [] [98]);
                              OpEnqueue no_fault (mkItem 0 5 [] [99])] (fresh ASC)) 1) = 1)
    by reflexivity.
  assert (H5 : pl_length (level_at (run [OpEnqueue no_fault (mkItem 0 1 [] [97]);
                              OpEnqueue no_fault (mkItem 0 5 [] [98]);
                              OpEnqueue no_fault (mkItem 0 5 [] [99])] (fresh ASC)) 5) = 2)
    by reflexivity.
  assert (Hs : span (run [OpEnqueue no_fault (mkItem 0 1 [] [97]);
                              OpEnqueue no_fault (mkItem 0 5 [] [98]);
                              OpEnqueue no_fault (mkItem 0 5 [] [99])] (fresh ASC))
                 [1; 2; 3; 4] = 1) by reflexivity.
  destruct (PeekByOffset_later_level ASC
              [OpEnqueue no_fault (mkItem 0 1 [] [97]);
               OpEnqueue no_fault (mkItem 0 5 [] [98]);
               OpEnqueue no_fault (mkItem 0 5 [] [99])] no_fault 2 5
              [1; 2; 3; 4] (seqZ 6 250) _ eq_refl) as (H & _).
  - repeat constructor; unfold is_priority; simpl; lia.
  - simpl. lia.
  - rewrite Hc, H1. lia.
  - rewrite Hc. reflexivity.
  - done.
  - rewrite Hs, H5. lia.
  - rewrite Hs in H. exact H.
Defined.

(** [PeekByOffset] past the end.  After any calls on a fresh queue whose
    cursor's level holds items, an offset that is at least [Length] fails
    with [ErrOutOfBounds] and leaves the queue unchanged. *)
Theorem PeekByOffset_out_of_bounds
    (o : order) (ops : list op) (f : faults) (offset : Z) (pq : PriorityQueue) :
  pq = run ops (fresh o) →
  Forall op_typed ops → Z.of_nat (length ops) < 2 ^ 64 →
  pl_length (level_at pq (curLevel pq)) ≠ 0 →
  Length pq ≤ offset < 2 ^ 64 →
  PeekByOffset f pq offset = ((None, Some ErrOutOfBounds), pq).
Proof.
  intros Hpq Hops Hn Hne Hoff.
  pose proof (Inv_reachable o ops Hops Hn) as HI.
  pose proof (total_reachable o ops Hops Hn) as Htot.
  pose proof (run_ord ops (fresh o)) as Ho. rewrite fresh_ord in Ho.
  rewrite <- Hpq in HI, Htot, Ho. clear Hpq.
  pose proof (inv_cur _ _ HI) as Hc.
  pose proof (span_served _ _ Hn HI) as Hsp.
  rewrite Length_sum, wrap64_small in Hoff by done. rewrite <- Hsp in Hoff.
  destruct (served_head (ord pq) _ Hc) as [rest Hhd].
  pose proof (span_nonneg pq rest) as Hrest.
  assert (Hle : pl_length (level_at pq (curLevel pq)) ≤ offset).
  { rewrite Hhd in Hoff. cbn [span foldr] in Hoff. fold (span pq rest) in Hoff. lia. }
  rewrite PeekByOffset_search by done. f_equal.
  apply findOffset_loop_miss; [apply ge_of_trans|by apply chain_served|done|lia|lia].
Qed.

Lemma PeekByOffset_out_of_bounds_witness :
  PeekByOffset no_fault
    (run [OpEnqueue no_fault (mkItem 0 1 [] [97]);
          OpEnqueue no_fault (mkItem 0 5 [] [98]);
          OpEnqueue no_fault (mkItem 0 5 [] [99])] (fresh DESC)) 3
  = ((None, Some ErrOutOfBounds),
     run [OpEnqueue no_fault (mkItem 0 1 [] [97]);
          OpEnqueue no_fault (mkItem 0 5 [] [98]);
          OpEnqueue no_fault (mkItem 0 5 [] [99])] (fresh DESC)).
Proof.
  assert (Hc : curLevel (run [OpEnqueue no_fault (mkItem 0 1 [] [97]);
                              OpEnqueue no_fault (mkItem 0 5 [] [98]);
                              OpEnqueue no_fault (mkItem 0 5 [] [99])] (fresh DESC)) = 5)
    by reflexivity.
  assert (H5 : pl_length (level_at (run [OpEnqueue no_fault (mkItem 0 1 [] [97]);
                              OpEnqueue no_fault (mkItem 0 5 [] [98]);
                              OpEnqueue no_fault (mkItem 0 5 [] [99])] (fresh DESC)) 5) = 2)
    by reflexivity.
  assert (HL : Length (run [OpEnqueue no_fault (mkItem 0 1 [] [97]);
                              OpEnqueue no_fault (mkItem 0 5 [] [98]);
                              OpEnqueue no_fault (mkItem 0 5 [] [99])] (fresh DESC)) = 3)
    by reflexivity.
  apply (PeekByOffset_out_of_bounds DESC
           [OpEnqueue no_fault (mkItem 0 1 [] [97]);
            OpEnqueue no_fault (mkItem 0 5 [] [98]);
            OpEnqueue no_fault (mkItem 0 5 [] [99])] no_fault 3 _ eq_refl).
  - repeat constructor; unfold is_priority; simpl; lia.
  - simpl. lia.
  - rewrite Hc, H5. lia.
  - rewrite HL. lia.
Defined.

(** * The stack

    [Stack] is the second type of the source file: one sequence of ids, the
    store keys being the 8-byte ids themselves.  [head] is the id of the top
    item and [tail] the id below the bottom one. *)

Module Stack.

Record Item : Type := mkItem {
  ID : Z;
  Key : list Z;
  Value : list Z
}.

Record Stack : Type := mkStack {
  db : gmap (list Z) (list Z);
  head : Z;
  tail : Z
}.

Definition Length (s : Stack) : Z := sub64 (head s) (tail s).

Definition getItemByID (f : faults) (s : Stack) (id : Z) : option Item * option error :=
  if Length s =? 0 then (None, Some ErrEmpty)
  else if (id <=? tail s) || (head s <? id) then (None, Some ErrOutOfBounds)
  else
    let '(v, err) := db_Get f (idToKey id) (db s) in
    (Some (mkItem id (idToKey id) v), err).

(** [Push] writes the id and the key into the caller's item; the updated item
    is returned with the error. *)
Definition Push (f : faults) (item : Item) (s : Stack) : (Item * option error) * Stack :=
  let id := add64 (head s) 1 in
  let item' := mkItem id (idToKey id) (Value item) in
  match db_Put f (Key item') (Value item') (db s) with
  | (d, None) => ((item', None), mkStack d (add64 (head s) 1) (tail s))
  | (_, Some e) => ((item', Some e), s)
  end.

Definition Pop (f : faults) (s : Stack) : (option Item * option error) * Stack :=
  match getItemByID f s (head s) with
  | (item, Some e) => ((item, Some e), s)
  | (None, None) => ((None, None), s)
  | (Some item, None) =>
      match db_Delete f (Key item) (db s) with
      | (_, Some e) => ((Some item, Some e), s)
      | (d, None) => ((Some item, None), mkStack d (sub64 (head s) 1) (tail s))
      end
  end.

Definition Peek (f : faults) (s : Stack) : option Item * option error :=
  getItemByID f s (head s).

Definition PeekByOffset (f : faults) (s : Stack) (offset : Z) : option Item * option error :=
  getItemByID f s (sub64 (head s) offset).

Definition PeekByID (f : faults) (s : Stack) (id : Z) : option Item * option error :=
  getItemByID f s id.

Definition Update (f : faults) (item : Item) (newValue : list Z) (s : Stack)
  : (Item * option error) * Stack :=
  let item' := mkItem (ID item) (Key item) newValue in
  match db_Put f (Key item') (Value item') (db s) with
  | (d, err) => ((item', err), mkStack d (head s) (tail s))
  end.

(** [init]: the iterator runs over the whole store; [iter_err] is what
    [iter.Error()] returns at the end. *)
Definition init (iter_err : option error) (s : Stack) : option error * Stack :=
  let ks := iter_keys (db s) [] in
  let h := match last ks with
           | Some k => keyToID k
           | None => 0
           end in
  let t := match ks with
           | k :: _ => sub64 (keyToID k) 1
           | [] => 0
           end in
  (iter_err, mkStack (db s) h t).

(** [OpenStack] once the store is open and the type marker checked. *)
Definition OpenStack (d : gmap (list Z) (list Z)) (iter_err : option error)
  : option error * Stack :=
  init iter_err (mkStack d 0 0).

(** A stack freshly created on an empty store. *)
Definition fresh : Stack := (OpenStack ∅ None).2.

(** The counters are [uint64] values and the bottom is below the top. *)
Definition typed (s : Stack) : Prop := 0 ≤ tail s ≤ head s ∧ head s < 2 ^ 64.

(** Every id between the bottom (excluded) and the top (included) is stored. *)
Definition stored (s : Stack) : Prop :=
  ∀ id, tail s < id ≤ head s → is_Some (db s !! idToKey id).

Section Basics.

Lemma Length_typed s : typed s → Length s = head s - tail s.
Proof. intros [H1 H2]. unfold Length, sub64. apply wrap64_small. lia. Qed.

Lemma getItemByID_ok f s id v :
  get_err f = None → Length s ≠ 0 → tail s < id ≤ head s →
  db s !! idToKey id = Some v →
  getItemByID f s id = (Some (mkItem id (idToKey id) v), None).
Proof.
  intros Hf Hne Hid Hv. unfold getItemByID, db_Get.
  apply Z.eqb_neq in Hne as ->. replace (_ || _) with false by lia.
  by rewrite Hf, Hv.
Qed.

Lemma getItemByID_ok_inv f s id item :
  getItemByID f s id = (Some item, None) →
  get_err f = None ∧ Length s ≠ 0 ∧ tail s < id ≤ head s ∧
  ∃ v, db s !! idToKey id = Some v ∧ item = mkItem id (idToKey id) v.
Proof.
  unfold getItemByID, db_Get.
  destruct (Length s =? 0) eqn:E1; [done|].
  destruct (_ || _) eqn:E2; [done|].
  destruct (get_err f); [done|].
  destruct (db s !! idToKey id) as [v|]; [|done].
  intros [= <-]. repeat split; try lia. by exists v.
Qed.

Lemma getItemByID_none f s id :
  (getItemByID f s id).1 = None →
  (getItemByID f s id = (None, Some ErrEmpty) ∧ Length s = 0) ∨
  (getItemByID f s id = (None, Some ErrOutOfBounds) ∧ Length s ≠ 0 ∧
   (id ≤ tail s ∨ head s < id)).
Proof.
  unfold getItemByID.
  destruct (Length s =? 0) eqn:E1; [left; split; [done|lia]|].
  destruct (_ || _) eqn:E2; [right; split; [done|lia]|].
  by destruct (db_Get f (idToKey id) (db s)).
Qed.

Lemma Pop_cases f s :
  (∃ item, getItemByID f s (head s) = (Some item, None) ∧ del_err f = None ∧
     Pop f s = ((Some item, None),
                mkStack (delete (Key item) (db s)) (sub64 (head s) 1) (tail s))) ∨
  (∃ e, Pop f s = ((getItemByID f s (head s)).1, Some e, s) ∧
        ((getItemByID f s (head s)).2 = Some e ∨
         (del_err f = Some e ∧ is_Some (getItemByID f s (head s)).1))).
Proof.
  unfold Pop.
  destruct (getItemByID f s (head s)) as [[item|] [e|]] eqn:E.
  - right. exists e. simpl. auto.
  - unfold db_Delete. destruct (del_err f) as [e|] eqn:Ed.
    + right. exists e. simpl. split; [done|]. right. split; [done|]. by eexists.
    + left. by exists item.
  - right. exists e. simpl. auto.
  - exfalso. destruct (getItemByID_none f s (head s)) as [[H _]|[H _]];
      rewrite E in *; done.
Qed.

Lemma fresh_eq : fresh = mkStack ∅ 0 0.
Proof. reflexivity. Qed.

End Basics.

(** Pushing values one after the other, and popping [n] times. *)
Definition push_all (vs : list (list Z)) (s : Stack) : Stack :=
  foldl (λ s v, (Push no_fault (mkItem 0 [] v) s).2) s vs.

Fixpoint pops (n : nat) (s : Stack) : list (option Item * option error) * Stack :=
  match n with
  | O => ([], s)
  | S n' =>
      let '(r, s1) := Pop no_fault s in
      let '(rs, s2) := pops n' s1 in
      (r :: rs, s2)
  end.

(** [s'] has the counters of [s] and the same stored values up to its top. *)
Definition same_below (s s' : Stack) : Prop :=
  head s' = head s ∧ tail s' = tail s ∧
  ∀ id, 0 ≤ id ≤ head s → db s' !! idToKey id = db s !! idToKey id.

(** [Push] then [Pop]: the pop returns the item just pushed, under the id
    [head + 1] and with the value pushed, and the counters are back where
    they were; the store is as before up to the deleted key. *)
Theorem Push_then_Pop (f f' : faults) (item : Item) (s : Stack) :
  typed s → head s < 2 ^ 64 - 1 →
  put_err f = None → get_err f' = None → del_err f' = None →
  (Push f item s).1 = (mkItem (head s + 1) (idToKey (head s + 1)) (Value item), None) ∧
  Pop f' (Push f item s).2 =
    ((Some (mkItem (head s + 1) (idToKey (head s + 1)) (Value item)), None),
     mkStack (delete (idToKey (head s + 1)) (db s)) (head s) (tail s)) ∧
  same_below s (Pop f' (Push f item s).2).2.
Proof.
  intros [Ht Hh] Hh' Hput Hget Hdel.
  assert (Hid : add64 (head s) 1 = head s + 1) by (apply wrap64_small; lia).
  assert (HP : Push f item s =
               ((mkItem (head s + 1) (idToKey (head s + 1)) (Value item), None),
                mkStack (<[idToKey (head s + 1) := Value item]> (db s)) (head s + 1) (tail s))).
  { unfold Push, db_Put. simpl. by rewrite Hput, Hid. }
  rewrite HP. simpl.
  assert (HQ : Pop f' (mkStack (<[idToKey (head s + 1) := Value item]> (db s))
                         (head s + 1) (tail s)) =
               ((Some (mkItem (head s + 1) (idToKey (head s + 1)) (Value item)), None),
                mkStack (delete (idToKey (head s + 1)) (db s)) (head s) (tail s))).
  { unfold Pop. simpl.
    rewrite (getItemByID_ok f' _ (head s + 1) (Value item)); simpl; try done.
    - unfold db_Delete. rewrite Hdel. simpl. rewrite delete_insert_eq.
      unfold sub64. rewrite wrap64_small by lia. do 3 f_equal. lia.
    - unfold Length, sub64. simpl. rewrite wrap64_small; lia.
    - lia.
    - apply lookup_insert_eq. }
  rewrite HQ. split; [done|]. split; [done|].
  split; [done|]. split; [done|]. simpl. intros id Hid'.
  apply lookup_delete_ne. intros E. apply idToKey_inj in E; lia.
Qed.

Lemma Push_then_Pop_witness :
  Pop no_fault (Push no_fault (mkItem 0 [] [97]) fresh).2 =
    ((Some (mkItem 1 (idToKey 1) [97]), None), mkStack (delete (idToKey 1) ∅) 0 0).
Proof.
  assert (Ht : typed fresh) by (rewrite fresh_eq; unfold typed; simpl; lia).
  assert (Hh : head fresh < 2 ^ 64 - 1) by (rewrite fresh_eq; simpl; lia).
  exact (proj1 (proj2
    (Push_then_Pop no_fault no_fault (mkItem 0 [] [97]) fresh Ht Hh eq_refl eq_refl eq_refl))).
Defined.

(** [Pop] and [Peek] on the stack: they fail with [ErrEmpty] and no item
    exactly when the stack is empty, and a [Pop] that returns an error leaves
    the stack as it was. *)
Theorem Pop_empty_iff (f : faults) (s : Stack) :
  typed s →
  ((Pop f s).1 = (None, Some ErrEmpty) ↔ head s = tail s) ∧
  (Peek f s = (None, Some ErrEmpty) ↔ head s = tail s) ∧
  ((Pop f s).1.2 ≠ None → (Pop f s).2 = s).
Proof.
  intros Ht. pose proof (Length_typed s Ht) as HL. destruct Ht as [Ht Hh].
  assert (HPk : Peek f s = (None, Some ErrEmpty) ↔ head s = tail s).
  { unfold Peek. split.
    - intros H. assert (Hn : (getItemByID f s (head s)).1 = None) by by rewrite H.
      destruct (getItemByID_none f s (head s) Hn) as [[_ H0]|[H0 _]]; [lia|].
      rewrite H0 in H. done.
    - intros E. unfold getItemByID. replace (Length s =? 0) with true by lia. done. }
  split; [|split; [done|]].
  - rewrite <- HPk. unfold Peek.
    destruct (Pop_cases f s) as [(item & Hi & _ & ->)|(e & -> & He)]; simpl.
    + rewrite Hi. done.
    + destruct (getItemByID f s (head s)) as [i e'] eqn:E. simpl in *.
      destruct He as [->|[_ [x ->]]]; [|done].
      split; congruence.
  - destruct (Pop_cases f s) as [(item & Hi & _ & ->)|(e & -> & _)]; simpl; done.
Qed.

Lemma Pop_empty_iff_witness :
  (Pop no_fault fresh).1 = (None, Some ErrEmpty) ∧ Peek no_fault fresh = (None, Some ErrEmpty).
Proof.
  assert (Ht : typed fresh) by (rewrite fresh_eq; unfold typed; simpl; lia).
  destruct (Pop_empty_iff no_fault fresh Ht) as ([_ H1] & [_ H2] & _).
  split; [apply H1 | apply H2]; reflexivity.
Defined.

(** Storage failures on the stack.  A [Push] whose write fails leaves the
    stack as it was, so the next [Push] is given the same id.  A [Pop] whose
    delete fails returns the item with the error and leaves the stack as it
    was, so the next [Pop] returns the identical item. *)
Theorem Stack_failures_keep_state
    (f f' : faults) (item item' : Item) (top : Item) (s : Stack) (e : error) :
  (put_err f = Some e →
     (Push f item s).1.2 = Some e ∧ (Push f item s).2 = s ∧
     ID (Push f' item' (Push f item s).2).1.1 = ID (Push f item s).1.1) ∧
  (getItemByID f s (head s) = (Some top, None) → del_err f = Some e →
     Pop f s = ((Some top, Some e), s) ∧
     (get_err f' = None → (Pop f' s).1.1 = Some top)).
Proof.
  split.
  - intros Hf. unfold Push, db_Put. simpl. rewrite Hf. simpl.
    repeat split. by destruct (put_err f').
  - intros Hi Hd. split.
    + unfold Pop, db_Delete. by rewrite Hi, Hd.
    + intros Hg. apply getItemByID_ok_inv in Hi as (_ & Hne & Hid & v & Hv & ->).
      unfold Pop. rewrite (getItemByID_ok f' s (head s) v) by done.
      unfold db_Delete. by destruct (del_err f').
Qed.

(** [PeekByOffset] counts down from the top: on a stack with [tail <= head]
    it fails with [ErrEmpty] when the stack is empty, with [ErrOutOfBounds]
    when the offset is at least the length, and otherwise reads the id
    [head - offset], returning its stored value when it has one. *)
Theorem PeekByOffset_spec (f : faults) (s : Stack) (offset : Z) :
  typed s → 0 ≤ offset < 2 ^ 64 →
  (head s = tail s → PeekByOffset f s offset = (None, Some ErrEmpty)) ∧
  (head s ≠ tail s → Length s ≤ offset →
     PeekByOffset f s offset = (None, Some ErrOutOfBounds)) ∧
  (offset < Length s →
     PeekByOffset f s offset = PeekByID f s (head s - offset) ∧
     (get_err f = None → ∀ v, db s !! idToKey (head s - offset) = Some v →
        PeekByOffset f s offset
        = (Some (mkItem (head s - offset) (idToKey (head s - offset)) v), None))).
Proof.
  intros Ht Ho. pose proof (Length_typed s Ht) as HL. destruct Ht as [Ht Hh].
  unfold PeekByOffset, PeekByID. split; [|split].
  - intros E. unfold getItemByID. replace (Length s =? 0) with true by lia. done.
  - intros Hne Hge. unfold getItemByID. replace (Length s =? 0) with false by lia.
    destruct (decide (offset ≤ head s)) as [Hle|Hgt].
    + unfold sub64. rewrite wrap64_small by lia.
      replace (_ || _) with true by lia. done.
    + unfold sub64, wrap64.
      replace (head s - offset) with (head s - offset + 2 ^ 64 + (-1) * 2 ^ 64) by lia.
      rewrite Z_mod_plus_full, Z.mod_small by lia.
      replace (_ || _) with true by lia. done.
  - intros Hlt.
    assert (Hid : sub64 (head s) offset = head s - offset)
      by (unfold sub64; apply wrap64_small; lia).
    rewrite Hid. split; [done|]. intros Hg v Hv.
    apply getItemByID_ok; try done; lia.
Qed.

Lemma PeekByOffset_spec_witness :
  PeekByOffset no_fault (push_all [[97]; [98]] fresh) 1
  = (Some (mkItem 1 (idToKey 1) [97]), None) ∧
  PeekByOffset no_fault (push_all [[97]; [98]] fresh) 2 = (None, Some ErrOutOfBounds).
Proof.
  assert (Hs : push_all [[97]; [98]] fresh
               = mkStack (<[idToKey 2 := [98]]> (<[idToKey 1 := [97]]> ∅)) 2 0)
    by reflexivity.
  assert (Ht : typed (push_all [[97]; [98]] fresh))
    by (rewrite Hs; unfold typed; simpl; lia).
  destruct (PeekByOffset_spec no_fault (push_all [[97]; [98]] fresh) 1 Ht) as (_ & _ & H1);
    [lia|].
  destruct (PeekByOffset_spec no_fault (push_all [[97]; [98]] fresh) 2 Ht) as (_ & H2 & _);
    [lia|].
  split.
  - destruct H1 as [_ H1]; [rewrite Hs; reflexivity|].
    apply (H1 eq_refl [97]). rewrite Hs. reflexivity.
  - apply H2; rewrite Hs; [simpl; lia | reflexivity].
Defined.

Section LIFO.

Lemma pops_app n m s :
  pops (n + m) s = ((pops n s).1 ++ (pops m (pops n s).2).1, (pops m (pops n s).2).2).
Proof.
  revert s. induction n as [|n IH]; intros s.
  - simpl. by destruct (pops m s).
  - simpl. destruct (Pop no_fault s) as [r s1]. rewrite IH.
    destruct (pops n s1) as [rs s2]. simpl. by destruct (pops m s2).
Qed.

Lemma same_below_refl s : same_below s s.
Proof. by split. Qed.

Lemma typed_same_below s s' : typed s → same_below s s' → typed s'.
Proof. intros Ht (Hh & Htl & _). unfold typed. by rewrite Hh, Htl. Qed.

Lemma Push_no_fault v s :
  typed s → head s < 2 ^ 64 - 1 →
  (Push no_fault (mkItem 0 [] v) s).2
  = mkStack (<[idToKey (head s + 1) := v]> (db s)) (head s + 1) (tail s).
Proof.
  intros [Ht Hh] Hh'. unfold Push, db_Put, add64. cbn [put_err no_fault Value Key snd].
  by rewrite (wrap64_small (head s + 1)) by lia.
Qed.

Lemma Pop_top s v :
  typed s → tail s < head s → db s !! idToKey (head s) = Some v →
  Pop no_fault s =
    ((Some (mkItem (head s) (idToKey (head s)) v), None),
     mkStack (delete (idToKey (head s)) (db s)) (head s - 1) (tail s)).
Proof.
  intros Ht Hlt Hv. pose proof (Length_typed s Ht) as HL. destruct Ht as [Ht Hh].
  unfold Pop. rewrite (getItemByID_ok no_fault s (head s) v); try done; try lia.
  unfold db_Delete. simpl. unfold sub64. by rewrite wrap64_small by lia.
Qed.

(** The result of popping the values [vs], last pushed first, when the first
    of them was pushed at id [h + 1]. *)
Definition popped (h : Z) (vs : list (list Z)) : list (option Item * option error) :=
  reverse (imap (λ i v, (Some (mkItem (h + 1 + Z.of_nat i) (idToKey (h + 1 + Z.of_nat i)) v),
                         None)) vs).

Lemma pops_push_all vs : ∀ s,
  typed s → head s + Z.of_nat (length vs) < 2 ^ 64 →
  (pops (length vs) (push_all vs s)).1 = popped (head s) vs ∧
  same_below s (pops (length vs) (push_all vs s)).2.
Proof.
  induction vs as [|v vs IH]; intros s Ht Hn.
  - simpl. split; [done|apply same_below_refl].
  - cbn [length] in Hn. rewrite Nat2Z.inj_succ in Hn.
    pose proof Ht as [Ht1 Ht2].
    set (s1 := mkStack (<[idToKey (head s + 1) := v]> (db s)) (head s + 1) (tail s)).
    assert (Hpush : push_all (v :: vs) s = push_all vs s1).
    { unfold push_all. cbn [foldl]. rewrite Push_no_fault; [done|done|lia]. }
    assert (Ht1' : typed s1) by (unfold typed, s1; simpl; lia).
    destruct (IH s1 Ht1') as [Hres Hsb]; [unfold s1; simpl; lia|].
    rewrite Hpush. cbn [length]. rewrite <- Nat.add_1_r, pops_app.
    set (s2 := (pops (length vs) (push_all vs s1)).2) in *.
    destruct Hsb as (Hh2 & Htl2 & Hdb2). simpl in Hh2, Htl2, Hdb2.
    assert (Hpop : Pop no_fault s2 =
              ((Some (mkItem (head s + 1) (idToKey (head s + 1)) v), None),
               mkStack (delete (idToKey (head s + 1)) (db s2)) (head s) (tail s))).
    { rewrite (Pop_top s2 v).
      - rewrite Hh2, Htl2. do 3 f_equal. lia.
      - unfold typed. rewrite Hh2, Htl2. lia.
      - rewrite Hh2, Htl2. lia.
      - rewrite Hh2, Hdb2 by lia. unfold s1. simpl. apply lookup_insert_eq. }
    simpl. rewrite Hpop. simpl. split.
    + rewrite Hres. unfold popped. simpl. rewrite reverse_cons.
      f_equal.
      * f_equal. apply imap_ext. intros i x _. simpl.
        replace (head s + 1 + 1 + Z.of_nat i) with (head s + 1 + Z.of_nat (S i)) by lia.
        done.
      * by rewrite Z.add_0_r.
    + split; [done|]. split; [done|]. simpl. intros id Hid.
      rewrite lookup_delete_ne.
      * rewrite Hdb2 by lia. unfold s1. simpl.
        apply lookup_insert_ne. intros E. apply idToKey_inj in E; lia.
      * intros E. apply idToKey_inj in E; lia.
Qed.

End LIFO.

(** Last in, first out.  Pushing the values [vs] on a stack and popping as
    many times returns them in reverse order, each without error and under
    the id it was pushed at; the counters are then back where they were and
    the items that were below are undisturbed. *)
Theorem push_all_then_pops (vs : list (list Z)) (s : Stack) :
  typed s → head s + Z.of_nat (length vs) < 2 ^ 64 →
  (pops (length vs) (push_all vs s)).1 = popped (head s) vs ∧
  (λ r, Value <$> r.1) <$> (pops (length vs) (push_all vs s)).1 = Some <$> reverse vs ∧
  Forall (λ r, r.2 = None) (pops (length vs) (push_all vs s)).1 ∧
  same_below s (pops (length vs) (push_all vs s)).2.
Proof.
  intros Ht Hn. destruct (pops_push_all vs s Ht Hn) as [Hres Hsb].
  split; [done|]. split; [|split; [|done]]; rewrite Hres; unfold popped.
  - rewrite !fmap_reverse, fmap_imap. f_equal. by rewrite <- imap_const.
  - apply Forall_reverse, Forall_lookup. intros i r Hr.
    rewrite list_lookup_imap in Hr. destruct (vs !! i); simpl in Hr; [|done].
    by injection Hr as <-.
Qed.

Lemma push_all_then_pops_witness :
  (pops 3 (push_all [[97]; [98]; [99]] fresh)).1 =
  [(Some (mkItem 3 (idToKey 3) [99]), None);
   (Some (mkItem 2 (idToKey 2) [98]), None);
   (Some (mkItem 1 (idToKey 1) [97]), None)].
Proof.
  assert (Ht : typed fresh) by (rewrite fresh_eq; unfold typed; simpl; lia).
  assert (Hn : head fresh + Z.of_nat (length [[97]; [98]; [99]]) < 2 ^ 64)
    by (rewrite fresh_eq; simpl; lia).
  exact (proj1 (push_all_then_pops [[97]; [98]; [99]] fresh Ht Hn)).
Defined.

(** The stacks a client can reach from a fresh one: by [Push] while the top
    id is below the largest [uint64], by [Pop], and by [Update] of an item
    whose key is in the store; every call under any storage failure. *)
Inductive reachable : Stack → Prop :=
| reach_fresh : reachable fresh
| reach_Push f item s :
    reachable s → head s < 2 ^ 64 - 1 → reachable (Push f item s).2
| reach_Pop f s :
    reachable s → reachable (Pop f s).2
| reach_Update f item newValue s :
    reachable s → is_Some (db s !! Key item) → reachable (Update f item newValue s).2.

(** The store of a reachable stack holds the ids [1 .. head] and nothing else. *)
Definition exact (s : Stack) : Prop :=
  tail s = 0 ∧ 0 ≤ head s < 2 ^ 64 ∧
  ∀ k, is_Some (db s !! k) ↔ ∃ id, 0 < id ≤ head s ∧ k = idToKey id.

Section Reach.

Lemma exact_typed s : exact s → typed s.
Proof. intros (Ht & Hh & _). unfold typed. lia. Qed.

Lemma exact_fresh : exact fresh.
Proof.
  rewrite fresh_eq. split; [done|]. split; [simpl; lia|]. intros k. simpl. split.
  - rewrite lookup_empty. by intros [? ?].
  - intros (id & Hid & _). lia.
Qed.

Lemma exact_Push f item s : head s < 2 ^ 64 - 1 → exact s → exact (Push f item s).2.
Proof.
  intros Hh (Ht & Hr & Hk). unfold Push, db_Put.
  destruct (put_err f); cbn [snd db head tail Key Value]; [done|].
  unfold exact. cbn [snd db head tail Key Value]. unfold add64.
  rewrite (wrap64_small (head s + 1)) by lia.
  split; [done|]. split; [lia|]. intros k. rewrite lookup_insert_is_Some, Hk. split.
  - intros [<-|[_ (id & Hid & ->)]].
    + exists (head s + 1). split; [lia|done].
    + exists id. split; [lia|done].
  - intros (id & Hid & ->). destruct (decide (id = head s + 1)) as [->|Hne]; [by left|].
    right. split.
    + intros E. apply idToKey_inj in E; lia.
    + exists id. split; [lia|done].
Qed.

Lemma exact_Pop f s : exact s → exact (Pop f s).2.
Proof.
  intros He. pose proof He as (Ht & Hr & Hk).
  destruct (Pop_cases f s) as [(item & Hi & _ & ->)|(e & -> & _)]; [|done].
  apply getItemByID_ok_inv in Hi as (_ & _ & Hid & v & _ & ->).
  unfold exact. cbn [snd db head tail Key]. unfold sub64. rewrite wrap64_small by lia.
  split; [done|]. split; [lia|]. intros k.
  rewrite lookup_delete_is_Some, Hk. split.
  - intros [Hne (id & Hid' & ->)]. exists id. split; [|done].
    destruct (decide (id = head s)) as [->|]; [done|lia].
  - intros (id & Hid' & ->). split.
    + intros E. apply idToKey_inj in E; lia.
    + exists id. split; [lia|done].
Qed.

Lemma exact_Update f item newValue s :
  is_Some (db s !! Key item) → exact s → exact (Update f item newValue s).2.
Proof.
  intros Hin (Ht & Hr & Hk). unfold Update, db_Put.
  destruct (put_err f); unfold exact; cbn [snd db head tail Key Value]; [done|].
  split; [done|]. split; [done|].
  intros k. rewrite lookup_insert_is_Some, <- Hk. split.
  - intros [<-|[_ H]]; done.
  - intros H. destruct (decide (Key item = k)); auto.
Qed.

Lemma reachable_exact s : reachable s → exact s.
Proof.
  induction 1 as [|f item s _ IH Hh|f s _ IH|f item v s _ IH Hin].
  - apply exact_fresh.
  - by apply exact_Push.
  - by apply exact_Pop.
  - by apply exact_Update.
Qed.

End Reach.



(** On a reachable stack a [Pop] with a working store never fails for a
    missing or out-of-range item: it fails with [ErrEmpty] when [head] is 0
    and otherwise returns the stored top item and lowers [head] by one. *)
Theorem reachable_Pop_progress (f : faults) (s : Stack) :
  reachable s → get_err f = None → del_err f = None →
  (head s = 0 ∧ Pop f s = ((None, Some ErrEmpty), s)) ∨
  (∃ v, db s !! idToKey (head s) = Some v ∧
        Pop f s = ((Some (mkItem (head s) (idToKey (head s)) v), None),
                   mkStack (delete (idToKey (head s)) (db s)) (head s - 1) (tail s))).
Proof.
  intros Hr Hg Hd. apply reachable_exact in Hr. pose proof Hr as (Ht & Hh & Hk).
  pose proof (Length_typed s (exact_typed s Hr)) as HL.
  destruct (decide (head s = 0)) as [E|E].
  - left. split; [done|]. unfold Pop, getItemByID.
    replace (Length s =? 0) with true by lia. done.
  - right. destruct (proj2 (Hk (idToKey (head s)))) as [v Hv].
    { exists (head s). split; [lia|done]. }
    exists v. split; [done|]. unfold Pop.
    rewrite (getItemByID_ok f s (head s) v); try done; try lia.
    unfold db_Delete. rewrite Hd. simpl. unfold sub64. by rewrite wrap64_small by lia.
Qed.

Lemma reachable_Pop_progress_witness :
  ∃ v, db (Push no_fault (mkItem 0 [] [97]) fresh).2 !! idToKey 1 = Some v ∧
       (Pop no_fault (Push no_fault (mkItem 0 [] [97]) fresh).2).1
       = (Some (mkItem 1 (idToKey 1) v), None).
Proof.
  destruct (reachable_Pop_progress no_fault (Push no_fault (mkItem 0 [] [97]) fresh).2)
    as [[H _]|(v & Hv & H)].
  - apply reach_Push; [apply reach_fresh | vm_compute; reflexivity].
  - reflexivity.
  - reflexivity.
  - exfalso. vm_compute in H. congruence.
  - exists v. split; [exact Hv|]. rewrite H. reflexivity.
Defined.

(** The length of the stack counts modulo [2 ^ 64]: a [Push] that returns no
    error adds one, a [Pop] that returns no error takes one off, and a call
    that returns an error leaves it as it was; [Update] never changes it. *)
Theorem Stack_Length_accounting
    (f : faults) (item : Item) (newValue : list Z) (s : Stack) :
  Length (Push f item s).2 =
    (if (Push f item s).1.2 is None then add64 (Length s) 1 else Length s) ∧
  Length (Pop f s).2 =
    (if (Pop f s).1.2 is None then sub64 (Length s) 1 else Length s) ∧
  Length (Update f item newValue s).2 = Length s.
Proof.
  split; [|split].
  - unfold Push, db_Put. destruct (put_err f); simpl; [done|].
    unfold Length. simpl. wrap_eq.
  - destruct (Pop_cases f s) as [(top & _ & _ & ->)|(e & -> & _)]; simpl; [|done].
    unfold Length. simpl. wrap_eq.
  - unfold Update, db_Put. by destruct (put_err f).
Qed.

(** [Update] on the stack writes the new value under the key the item
    carries and moves neither counter; a reader of that id then gets the new
    value, and every other key reads as before. *)
Theorem Stack_Update_spec
    (f f' : faults) (item : Item) (newValue : list Z) (s : Stack) :
  head (Update f item newValue s).2 = head s ∧
  tail (Update f item newValue s).2 = tail s ∧
  (Update f item newValue s).1 = (mkItem (ID item) (Key item) newValue, put_err f) ∧
  (put_err f ≠ None → (Update f item newValue s).2 = s) ∧
  (put_err f = None → get_err f' = None →
     ∀ id, Key item = idToKey id → Length s ≠ 0 → tail s < id ≤ head s →
       PeekByID f' (Update f item newValue s).2 id
       = (Some (mkItem id (idToKey id) newValue), None)) ∧
  (∀ id, idToKey id ≠ Key item →
     PeekByID f' (Update f item newValue s).2 id = PeekByID f' s id).
Proof.
  unfold Update, db_Put. simpl.
  destruct (put_err f) as [e|] eqn:E; simpl.
  - repeat split; try done. by destruct s.
  - repeat split; try done.
    + intros _ Hf' id Hk Hne Hid. unfold PeekByID.
      apply getItemByID_ok; try done. simpl. rewrite Hk. apply lookup_insert_eq.
    + intros id Hk. unfold PeekByID, getItemByID, db_Get, Length. simpl.
      by rewrite lookup_insert_ne.
Qed.

End Stack.
